(** * Declaration emission for bundless builds: [src/builder/bundless/dts/index.ts]

    A shallow embedding of [getTsconfig] and [getDeclarations], together with
    the properties of the caching and output-reconciliation layer.

    The TypeScript compiler, the content hash, the serializer of the options
    and Node's [path] helpers are collaborators: they are collected in the
    record [Collaborators] and every definition is parametric in it. The
    file system, the log and the persistent cache are state, threaded
    through a small state-and-exception monad. *)

From Stdlib Require Import Ascii.
From stdpp Require Import base option list strings pretty gmap.

(** ** Strings *)

(** [Array.prototype.join]: the elements separated by [sep]. *)
Definition join (sep : string) (parts : list string) : string :=
  String.concat sep parts.

(** [String.prototype.startsWith]. *)
Definition startsWith (s p : string) : bool := String.prefix p s.

Definition is_slash (c : ascii) : bool := bool_decide (c = "/"%char).

Fixpoint skip_slashes (l : list ascii) : list ascii :=
  match l with
  | c :: l' => if is_slash c then skip_slashes l' else l
  | [] => []
  end.

Fixpoint until_slash (l : list ascii) : list ascii :=
  match l with
  | c :: l' => if is_slash c then [] else c :: until_slash l'
  | [] => []
  end.

(** [path.basename] (POSIX): scanning from the end of the path, trailing
    separators are skipped and the characters up to the next separator are
    kept. *)
Definition basename (p : string) : string :=
  String.string_of_list_ascii
    (rev (until_slash (skip_slashes (rev (String.list_ascii_of_string p))))).

Fixpoint after_slash (l : list ascii) : list ascii :=
  match l with
  | c :: l' => if is_slash c then l else after_slash l'
  | [] => []
  end.

(** [path.dirname] (POSIX): scanning from the end of the path down to its
    second character, trailing separators and the last component are
    skipped; the path up to the separator found there is returned, ["/"] or
    ["."] when there is none, and ["//"] when that separator is the second
    character of a path that begins with one. *)
Definition dirname (p : string) : string :=
  match String.list_ascii_of_string p with
  | [] => "."
  | c0 :: tail =>
      match after_slash (skip_slashes (rev tail)) with
      | [] => if is_slash c0 then "/" else "."
      | _ :: before =>
          if is_slash c0 && bool_decide (before = []) then "//"
          else String.string_of_list_ascii (c0 :: rev before)
      end
  end.

(** A directory and the directories above it, nearest first: what
    [fsExtra.ensureDirSync] makes sure of. *)
Fixpoint ancestors_upto (n : nat) (dir : string) : list string :=
  match n with
  | 0 => [dir]
  | S n' =>
      let parent := dirname dir in
      if bool_decide (parent = dir) then [dir]
      else dir :: ancestors_upto n' parent
  end.
Definition ancestors (dir : string) : list string :=
  ancestors_upto (String.length dir) dir.

(** ** Data model *)

(** One element of [output] and of every cache entry:
    [{ file: string; content: string; sourceFile: string }]. *)
Record Artifact := mkArtifact {
  file : string;
  content : string;
  sourceFile : string
}.

#[global] Instance Artifact_eq_dec : EqDecision Artifact.
Proof. solve_decision. Defined.

(** [ts.SourceFile]: only [fileName] is read. *)
Record SourceFile := mkSourceFile { fileName : string }.

#[global] Instance SourceFile_eq_dec : EqDecision SourceFile.
Proof. solve_decision. Defined.

(** The arguments of one call of [tsHost.writeFile]: [fileName], [content]
    and [sourceFiles] (the code ignores the third and fourth, [_a] and
    [_b]). [sourceFiles] is optional in the compiler's callback type, and an
    array when present. *)
Record Write := mkWrite {
  w_fileName : string;
  w_content : string;
  w_sourceFiles : option (list SourceFile)
}.

(** [ts.Diagnostic]. [file] and [start] are optional in the compiler's
    type; the code reads them as [d.file!] and [d.start!], which checks
    nothing at run time. [messageText] is kept flattened. *)
Record Diagnostic := mkDiagnostic {
  d_file : option SourceFile;
  d_start : option nat;
  d_code : nat;
  d_messageText : string
}.

(** [tsconfig.options]: the options this module reads or writes, and the
    remaining ones as an opaque list. [paths] is a JS object whose own keys
    are enumerated in insertion order; it is kept as the list of its
    (key, value) properties. [propertyOrder] is the insertion order of the
    own properties of the options object itself, the order in which
    [JSON.stringify] writes them. *)
Record CompilerOptions := mkOptions {
  declaration : option bool;
  noEmit : option bool;
  declarationMap : option bool;
  paths : option (list (string * list string));
  pathsBasePath : string;
  incremental : option bool;
  tsBuildInfoFile : option string;
  passthrough : list (string * string);
  propertyOrder : list string
}.

(** An assignment [options.name = value]: a property that is already there
    keeps its place, a new one goes last. *)
Definition assigned (name : string) (order : list string) : list string :=
  if bool_decide (name ∈ order) then order else order ++ [name].

#[global] Instance CompilerOptions_eq_dec : EqDecision CompilerOptions.
Proof. solve_decision. Defined.

(** [ts.ParsedCommandLine]: [errors] (flattened to their message text) and
    [options]. *)
Record ParsedCommandLine := mkParsed {
  errors : list string;
  options : CompilerOptions
}.

(** [process.env]. *)
Record ProcessEnv := mkEnv {
  FATHER_CACHE : option string;
  NODE_ENV : option string
}.

(** ** Effects *)

Inductive LogEntry :=
  | warn (msg : string)
  | debug (msg : string)
  | error (msg : string).

#[global] Instance LogEntry_eq_dec : EqDecision LogEntry.
Proof. solve_decision. Defined.

(** What the function can throw: [new Error(msg)]; the [TypeError] of a
    property access on [undefined]; the error of [fs.readFileSync] on a path
    that does not exist, and of [fs.writeFileSync] on a path whose directory
    does not exist. *)
Inductive Exn :=
  | Error (msg : string)
  | TypeError
  | ENOENT (path : string).

(** Calls into the compiler: [ts.createIncrementalProgram] with its
    [rootNames] and [options], and the return of [incrProgram.emit] with its
    [diagnostics]. *)
Inductive CompilerCall :=
  | createIncrementalProgram (rootNames : list string) (opts : CompilerOptions)
  | emitReturned (diagnostics : list Diagnostic).

(** Everything outside the function that it reads or changes: the log, the
    files read by [fs.readFileSync] and written by [fsExtra.writeFileSync],
    the directories made by [fsExtra.ensureDirSync], the entries of the
    ['bundless-dts'] cache, and the calls made to the compiler so far. *)
Record World := mkWorld {
  logs : list LogEntry;
  files : gmap string string;
  dirs : gset string;
  store : gmap string (list Artifact);
  compiler : list CompilerCall
}.

Definition set_logs (f : list LogEntry → list LogEntry) (w : World) : World :=
  mkWorld (f (logs w)) (files w) (dirs w) (store w) (compiler w).
Definition set_files (f : gmap string string → gmap string string) (w : World) : World :=
  mkWorld (logs w) (f (files w)) (dirs w) (store w) (compiler w).
Definition set_dirs (f : gset string → gset string) (w : World) : World :=
  mkWorld (logs w) (files w) (f (dirs w)) (store w) (compiler w).
Definition set_store
    (f : gmap string (list Artifact) → gmap string (list Artifact)) (w : World) : World :=
  mkWorld (logs w) (files w) (dirs w) (f (store w)) (compiler w).
Definition set_compiler (f : list CompilerCall → list CompilerCall) (w : World) : World :=
  mkWorld (logs w) (files w) (dirs w) (store w) (f (compiler w)).

Inductive Outcome (A : Type) :=
  | Returned (a : A)
  | Thrown (e : Exn).
Arguments Returned {A} a.
Arguments Thrown {A} e.

(** A computation over the world that returns or throws. *)
Definition M (A : Type) : Type := World → Outcome A * World.

#[global] Instance M_ret : MRet M := λ A a w, (Returned a, w).
#[global] Instance M_bind : MBind M := λ A B f m w,
  match m w with
  | (Returned a, w') => f a w'
  | (Thrown e, w') => (Thrown e, w')
  end.

Definition throw {A} (e : Exn) : M A := λ w, (Thrown e, w).
Definition logger (e : LogEntry) : M unit :=
  λ w, (Returned (), set_logs (λ l, l ++ [e]) w).
(** [files] holds the regular files that can be read, with their content;
    any other path is reported as missing. (The worlds of the model have
    no path that exists and cannot be read: for a directory or a file
    without read permission the code throws another error of [fs].) *)
Definition readFileSync (path : string) : M string :=
  λ w, match files w !! path with
       | Some c => (Returned c, w)
       | None => (Thrown (ENOENT path), w)
       end.
(** A file is created or replaced in a directory that exists; no directory
    is made on the way. *)
Definition writeFileSync (path data : string) : M unit :=
  λ w, if bool_decide (dirname path ∈ dirs w)
       then (Returned (), set_files (insert path data) w)
       else (Thrown (ENOENT path), w).
(** The directory is made, and every directory above it that is missing. *)
Definition ensureDirSync (dir : string) : M unit :=
  λ w, (Returned (), set_dirs (λ d, list_to_set (ancestors dir) ∪ d) w).
Definition call_compiler (c : CompilerCall) : M unit :=
  λ w, (Returned (), set_compiler (λ l, l ++ [c]) w).

(** [forEach] over a list with a loop-carried value. *)
Fixpoint foldM {A B} (f : B → A → M B) (b : B) (l : list A) : M B :=
  match l with
  | [] => mret b
  | a :: l' => b' ← f b a; foldM f b' l'
  end.

(** ** Collaborators *)

(** The functions the module imports: the TypeScript API, Node's [path],
    [winPath] of [@umijs/utils], [CACHE_PATH] of [constants],
    [getContentHash] of [builder/utils] and [JSON.stringify] on compiler
    options. [ts_parseConfigFile] stands for [ts.readConfigFile] followed by
    [ts.parseJsonConfigFileContent]. [ts_getLineAndCharacterOfPosition]
    receives [d.start] as it is, a number or [undefined], and returns a line
    and a character or throws. [tsc] is one incremental program
    followed by one [emit]: from the root names, the options and the files
    on disk, the calls it makes to the host's [writeFile], in order, and the
    diagnostics it returns. [Object_prototype] is the object every object
    literal inherits from: for the name of one of its properties
    ([constructor], [toString], ...), the string its value turns into when
    it is used as a property key. *)
Record Collaborators := mkCollaborators {
  ts_findConfigFile : string → option string;
  ts_parseConfigFile : string → ParsedCommandLine;
  ts_getLineAndCharacterOfPosition : SourceFile → option nat → Outcome (nat * nat);
  tsc : list string → CompilerOptions → gmap string string →
        list Write * list Diagnostic;
  path_join : list string → string;
  path_resolve : string → string → string;
  path_relative : string → string → string;
  winPath : string → string;
  CACHE_PATH : string;
  getContentHash : string → string;
  JSON_stringify : CompilerOptions → string;
  Object_prototype : string → option string
}.

(** ** JS objects used as records of properties *)

Fixpoint get_prop (item : string) (obj : list (string * list string))
    : option (list string) :=
  match obj with
  | [] => None
  | (k, v) :: obj' => if decide (k = item) then Some v else get_prop item obj'
  end.

Definition delete_prop (item : string) (obj : list (string * list string))
    : list (string * list string) :=
  filter (λ p, p.1 ≠ item) obj.

(** A string is falsy exactly when it is empty. *)
Definition truthy (s : string) : bool := bool_decide (s ≠ "").

(** ** The output interceptor's state *)

(** The two local variables the [writeFile] closure mutates. *)
Record Sink := mkSink {
  output : list Artifact;
  cacheRets : gmap string (list Artifact)
}.

(** The predicate of [output.findIndex]. *)
Definition same_out (ret out : Artifact) : Prop :=
  file out = file ret ∧ sourceFile out = sourceFile ret.

#[global] Instance same_out_dec ret out : Decision (same_out ret out).
Proof. unfold same_out. apply _. Defined.

(** Lines 134-141: replace in place ([splice(index, 1, ret)]) at the first
    index found, or [push]. *)
Definition upsert (ret : Artifact) (output : list Artifact) : list Artifact :=
  match list_find (same_out ret) output with
  | Some (index, _) => <[index := ret]> output
  | None => output ++ [ret]
  end.

(** Lines 155-156: [cacheRets[cacheKey] ??= []; cacheRets[cacheKey].push(ret)]. *)
Definition cache_push (cacheKey : string) (ret : Artifact)
    (cacheRets : gmap string (list Artifact)) : gmap string (list Artifact) :=
  <[cacheKey := default [] (cacheRets !! cacheKey) ++ [ret]]> cacheRets.

(** [sourceFiles?.[0].fileName]: [undefined] when [sourceFiles] is absent;
    on an empty array [sourceFiles[0]] is [undefined] and reading its
    [fileName] throws. *)
Definition first_fileName (sourceFiles : option (list SourceFile)) : M (option string) :=
  match sourceFiles with
  | None => mret None
  | Some [] => throw TypeError
  | Some (sf :: _) => mret (Some (fileName sf))
  end.

(** ** The cache store *)

(** Modelled from the spec: [getCache] of [utils] is not among the sources.
    The store exposes [get(key)] and [set(key, artifact-list)]; when caching
    is disabled by the environment switch, [get] always misses and [set]
    does nothing. *)
Definition getSync (enableCache : bool) (key : string) : M (option (list Artifact)) :=
  λ w, (Returned (if enableCache then store w !! key else None), w).

Definition setSync (enableCache : bool) (key : string) (value : list Artifact) : M unit :=
  λ w, (Returned (), if enableCache then set_store (insert key value) w else w).

Section dts.
Context (E : Collaborators) (env : ProcessEnv).

(** ** [getTsconfig] (lines 12-26) *)
Definition getTsconfig (cwd : string) : option ParsedCommandLine :=
  match ts_findConfigFile E cwd with
  | Some tsconfigPath => Some (ts_parseConfigFile E tsconfigPath)
  | None => None
  end.

(** ** [getDeclarations] (lines 31-213) *)

(** Lines 107-111 and 149-153: [[file, hash, config].join(':')]. *)
Definition cacheKey (file content : string) (opts : CompilerOptions) : string :=
  join ":" [file; getContentHash E content; JSON_stringify E opts].

(** Lines 71-77. *)
Definition defaultDeclarationMap (opts : CompilerOptions) : CompilerOptions :=
  if bool_decide (NODE_ENV env = Some "development")
     && bool_decide (declaration opts = Some true)
     && bool_decide (declarationMap opts ≠ Some false)
  then mkOptions (declaration opts) (noEmit opts) (Some true) (paths opts)
         (pathsBasePath opts) (incremental opts) (tsBuildInfoFile opts)
         (passthrough opts) (assigned "declarationMap" (propertyOrder opts))
  else opts.

(** The test of line 86, on one target of an alias. *)
Definition inCwd (cwd base target : string) : bool :=
  startsWith (winPath E (path_resolve E base target)) (winPath E cwd +:+ "/").

(** Lines 80-92, one iteration of the [forEach] over the keys;
    [paths[item][0]] is [undefined] on an empty array, and [path.resolve]
    throws on an argument that is not a string. *)
Definition removeOutOfCwd (cwd base : string)
    (obj : list (string * list string)) (item : string)
    : M (list (string * list string)) :=
  match get_prop item obj with
  | None | Some [] => throw TypeError
  | Some (target :: _) =>
      if inCwd cwd base target then mret obj
      else
        logger (debug ("Remove " +:+ item +:+
                       " from tsconfig.paths, because it's out of cwd."));;
        mret (delete_prop item obj)
  end.

Definition removeOutOfCwdPaths (cwd : string) (opts : CompilerOptions)
    : M CompilerOptions :=
  match paths opts with
  | None => mret opts
  | Some obj =>
      obj' ← foldM (removeOutOfCwd cwd (pathsBasePath opts)) obj obj.*1;
      mret (mkOptions (declaration opts) (noEmit opts) (declarationMap opts)
              (Some obj') (pathsBasePath opts) (incremental opts)
              (tsBuildInfoFile opts) (passthrough opts) (propertyOrder opts))
  end.

(** Lines 94-100. *)
Definition enableIncremental (enableCache : bool) (tscCacheDir : string)
    (opts : CompilerOptions) : CompilerOptions :=
  if enableCache && bool_decide (incremental opts = None)
  then mkOptions (declaration opts) (noEmit opts) (declarationMap opts)
         (paths opts) (pathsBasePath opts) (Some true)
         (Some (path_join E [tscCacheDir; "tsc.tsbuildinfo"]))
         (passthrough opts)
         (assigned "tsBuildInfoFile"
            (assigned "incremental" (propertyOrder opts)))
  else opts.

(** Lines 103-114: the [reduce] over the input files. *)
Definition computeCacheKeys (inputFiles : list string) (opts : CompilerOptions)
    : M (gmap string string) :=
  foldM (λ ret file,
           c ← readFileSync file;
           mret (<[file := cacheKey file c opts]> ret))
        ∅ inputFiles.

(** Lines 117-158: [tsHost.writeFile]. [cacheKeys] is an object literal:
    [cacheKeys[sourceFile]] finds the key of an input file and, for any
    other name, what every object inherits under that name, if anything. *)
Definition writeFile (inputFiles : list string) (opts : CompilerOptions)
    (cacheKeys : gmap string string) (s : Sink) (wr : Write) : M Sink :=
  sourceFile ← first_fileName (w_sourceFiles wr);
  if bool_decide (tsBuildInfoFile opts = Some (w_fileName wr)) then
    writeFileSync (w_fileName wr) (w_content wr);;
    mret s
  else
    match sourceFile with
    | Some sourceFile =>
        if truthy sourceFile then
          let ret := mkArtifact (basename (w_fileName wr)) (w_content wr) sourceFile in
          let output' :=
            if bool_decide (sourceFile ∈ inputFiles) then upsert ret (output s)
            else output s in
          key ← match cacheKeys !! sourceFile with
                | Some k =>
                    if truthy k then mret k
                    else c ← readFileSync sourceFile;
                         mret (cacheKey sourceFile c opts)
                | None =>
                    match Object_prototype E sourceFile with
                    | Some inherited => mret inherited
                    | None =>
                        c ← readFileSync sourceFile;
                        mret (cacheKey sourceFile c opts)
                    end
                end;
          mret (mkSink output' (cache_push key ret (cacheRets s)))
        else mret s
    | None => mret s
    end.

(** Lines 161-166: use cache first. *)
Definition useCacheFirst (enableCache : bool) (inputFiles : list string)
    (cacheKeys : gmap string string) (output0 : list Artifact) : M (list Artifact) :=
  foldM (λ out file,
           cacheRet ← match cacheKeys !! file with
                      | Some k => getSync enableCache k
                      | None => mret None
                      end;
           match cacheRet with
           | Some l => mret (out ++ l)
           | None => mret out
           end)
        output0 inputFiles.

(** Lines 195-202, for a diagnostic with a file and the location found
    for it; the colours of [chalk] are left out. *)
Definition diagnosticMessage (cwd : string) (file : SourceFile)
    (loc : nat * nat) (d : Diagnostic) : string :=
  let rltPath := winPath E (path_relative E cwd (fileName file)) in
  rltPath +:+ ":" +:+ pretty (loc.1 + 1) +:+ ":" +:+ pretty (loc.2 + 1)
    +:+ " - " +:+ "TS" +:+ pretty (d_code d) +:+ ":" +:+ " " +:+ d_messageText d.

(** Lines 193-204, one iteration of the [forEach]. Line 194 hands [d.file]
    to [ts.getLineAndCharacterOfPosition], which reads its line map, and
    line 195 reads its [fileName]: on a diagnostic without a file this
    throws. With a file, line 194 throws when the compiler cannot place
    [d.start] in it. *)
Definition reportDiagnostic (cwd : string) (d : Diagnostic) : M unit :=
  match d_file d with
  | Some file =>
      match ts_getLineAndCharacterOfPosition E file (d_start d) with
      | Returned loc => logger (error (diagnosticMessage cwd file loc d))
      | Thrown e => throw e
      end
  | None => throw TypeError
  end.

(** Line 209: save cache. *)
Definition saveCache (enableCache : bool) (cacheRets : gmap string (list Artifact))
    : M unit :=
  foldM (λ _ kv, setSync enableCache kv.1 kv.2) () (map_to_list cacheRets).

(** Lines 102-209, once the options are settled. *)
Definition compilePass (enableCache : bool) (inputFiles : list string)
    (cwd : string) (opts : CompilerOptions) (output0 : list Artifact)
    : M (list Artifact) :=
  cacheKeys ← computeCacheKeys inputFiles opts;
  seeded ← useCacheFirst enableCache inputFiles cacheKeys output0;
  call_compiler (createIncrementalProgram inputFiles opts);;
  result ← (λ w, (Returned (tsc E inputFiles opts (files w)), w));
  s ← foldM (writeFile inputFiles opts cacheKeys) (mkSink seeded ∅) result.1;
  call_compiler (emitReturned result.2);;
  match result.2 with
  | _ :: _ =>
      foldM (λ _ d, reportDiagnostic cwd d) () result.2;;
      throw (Error "Declaration generation failed.")
  | [] =>
      saveCache enableCache (cacheRets s);;
      mret (output s)
  end.

(** Lines 36-37. *)
Definition enableCache : bool := bool_decide (FATHER_CACHE env ≠ Some "none").
Definition tscCacheDir (cwd : string) : string :=
  path_join E [cwd; CACHE_PATH E; "tsc"].

Definition getDeclarations (inputFiles : list string) (cwd : string)
    : M (list Artifact) :=
  (if enableCache then ensureDirSync (tscCacheDir cwd) else mret ());;
  let output0 := [] in
  match getTsconfig cwd with
  | Some tsconfig =>
      match errors tsconfig with
      | e :: _ =>
          throw (Error ("Error parsing tsconfig.json content: " +:+ e))
      | [] =>
          let opts := options tsconfig in
          if bool_decide (declaration opts = Some true)
             && bool_decide (noEmit opts = Some true)
          then
            logger (warn "tsconfig.json `noEmit` is true, will not emit declaration files!");;
            mret output0
          else
            opts ← removeOutOfCwdPaths cwd (defaultDeclarationMap opts);
            compilePass enableCache inputFiles cwd
              (enableIncremental enableCache (tscCacheDir cwd) opts) output0
      end
  | None => mret output0
  end.

End dts.

(** * Notions used in the statements *)

(** What [output.findIndex] compares: the pair ([file], [sourceFile]). *)
Definition identity (a : Artifact) : string * string := (file a, sourceFile a).

(** The artifact [ret] (lines 125-129) that a write yields: none for the
    write of the incremental-state file, and none when [sourceFile] is
    falsy. *)
Definition attributed (opts : CompilerOptions) (wr : Write) : option Artifact :=
  if bool_decide (tsBuildInfoFile opts = Some (w_fileName wr)) then None
  else
    match w_sourceFiles wr with
    | Some (sf :: _) =>
        if truthy (fileName sf)
        then Some (mkArtifact (basename (w_fileName wr)) (w_content wr) (fileName sf))
        else None
    | _ => None
    end.

(** The artifact a write puts into [output]: its source must be an input
    file (line 133). *)
Definition collected (inputFiles : list string) (opts : CompilerOptions)
    (wr : Write) : option Artifact :=
  match attributed opts wr with
  | Some ret => if bool_decide (sourceFile ret ∈ inputFiles) then Some ret else None
  | None => None
  end.

(** The key of lines 147-153, read off the files on disk. *)
Definition sourceKey (E : Collaborators) (opts : CompilerOptions)
    (cacheKeys : gmap string string) (fs : gmap string string)
    (sourceFile : string) : option string :=
  match cacheKeys !! sourceFile with
  | Some k =>
      if truthy k then Some k
      else (λ c, cacheKey E sourceFile c opts) <$> fs !! sourceFile
  | None =>
      match Object_prototype E sourceFile with
      | Some inherited => Some inherited
      | None => (λ c, cacheKey E sourceFile c opts) <$> fs !! sourceFile
      end
  end.

(** The key under which a pass over [inputFiles] files the artifacts of a
    source file: for an input file and for any file whose name no object
    inherits, the key made of its path, the hash of its content on disk and
    the options. *)
Definition keyFor (E : Collaborators) (inputFiles : list string)
    (opts : CompilerOptions) (fs : gmap string string) (sourceFile : string)
    : option string :=
  if bool_decide (sourceFile ∈ inputFiles)
  then (λ c, cacheKey E sourceFile c opts) <$> fs !! sourceFile
  else
    match Object_prototype E sourceFile with
    | Some inherited => Some inherited
    | None => (λ c, cacheKey E sourceFile c opts) <$> fs !! sourceFile
    end.


(** No ["/"] occurs in the string. *)
Fixpoint slash_free (s : string) : bool :=
  match s with
  | EmptyString => true
  | String c s' => negb (is_slash c) && slash_free s'
  end.

(** What lines 161-166 append to [output]. *)
Definition seeds (enableCache : bool) (st : gmap string (list Artifact))
    (cacheKeys : gmap string string) (inputFiles : list string) : list Artifact :=
  flat_map (λ file,
     match cacheKeys !! file with
     | Some k => if enableCache then default [] (st !! k) else []
     | None => []
     end) inputFiles.

(** The entry line 88 logs for a removed alias. *)
Definition removal_notice (item : string) : LogEntry :=
  debug ("Remove " +:+ item +:+ " from tsconfig.paths, because it's out of cwd.").

(** The two file systems agree on every path but the incremental-state
    file [p]. *)
Definition agree_off (p : option string) (fs fs0 : gmap string string) : Prop :=
  ∀ x, p ≠ Some x → fs !! x = fs0 !! x.

(** The entry of key [k] after the pushes of lines 155-156, in order. *)
Definition push_all (k : string) (pushes : list (string * Artifact))
    (entry : option (list Artifact)) : option (list Artifact) :=
  foldl (λ e kr, if decide (kr.1 = k) then Some (default [] e ++ [kr.2]) else e)
        entry pushes.

(** What lines 194-203 do with one diagnostic: the entry they log, or what
    they throw. *)
Definition reportOutcome (E : Collaborators) (cwd : string) (d : Diagnostic)
    : Exn + LogEntry :=
  match d_file d with
  | Some file =>
      match ts_getLineAndCharacterOfPosition E file (d_start d) with
      | Returned loc => inr (error (diagnosticMessage E cwd file loc d))
      | Thrown e => inl e
      end
  | None => inl TypeError
  end.

(** The diagnostic has a file, and the compiler places its start in it. *)
Definition located (E : Collaborators) (d : Diagnostic) : bool :=
  match d_file d with
  | Some file =>
      match ts_getLineAndCharacterOfPosition E file (d_start d) with
      | Returned _ => true
      | Thrown _ => false
      end
  | None => false
  end.

(** The entries lines 193-204 log: one for each diagnostic, up to the first
    diagnostic that makes them throw. *)
Fixpoint reported (E : Collaborators) (cwd : string) (ds : list Diagnostic)
    : list LogEntry :=
  match ds with
  | [] => []
  | d :: ds' =>
      match reportOutcome E cwd d with
      | inr entry => entry :: reported E cwd ds'
      | inl _ => []
      end
  end.

(** What the [forEach] of lines 193-204 throws, if it throws. *)
Fixpoint reportFailure (E : Collaborators) (cwd : string) (ds : list Diagnostic)
    : option Exn :=
  match ds with
  | [] => None
  | d :: ds' =>
      match reportOutcome E cwd d with
      | inr _ => reportFailure E cwd ds'
      | inl e => Some e
      end
  end.

(** Every artifact in the cache store sits under a key that belongs to its
    own source file: a key made of its path, or what objects inherit under
    its name. *)
Definition store_wf (E : Collaborators) (st : gmap string (list Artifact)) : Prop :=
  ∀ k entry a, st !! k = Some entry → a ∈ entry →
    (∃ c o, k = cacheKey E (sourceFile a) c o)
    ∨ Object_prototype E (sourceFile a) = Some k.

(** The test of lines 81-86 on an alias: its first target, resolved against
    the base path, is inside the project root. *)
Definition kept (E : Collaborators) (cwd base : string)
    (alias : string * list string) : bool :=
  match alias.2 with
  | target :: _ => inCwd E cwd base target
  | [] => false
  end.

(** * A small project, used to run the definitions *)

Module Demo.

(** A checksum over the characters, printed in decimal. *)
Definition checksum (c : string) : string :=
  pretty (foldr (λ ch acc, (nat_of_ascii ch + 31 * acc) `mod` 4093) 7
            (String.list_ascii_of_string c)).

Definition json_bool (name : string) (v : option bool) : list string :=
  match v with
  | Some true => [name +:+ ":true"]
  | Some false => [name +:+ ":false"]
  | None => []
  end.

Definition json_alias (kv : string * list string) : string :=
  kv.1 +:+ ":[" +:+ join "," kv.2 +:+ "]".

(** A serializer in the manner of [JSON.stringify]: absent options are left
    out. *)
Definition stringify (o : CompilerOptions) : string :=
  "{" +:+
  join ","
    (json_bool "declaration" (declaration o) ++
     json_bool "noEmit" (noEmit o) ++
     json_bool "declarationMap" (declarationMap o) ++
     match paths o with
     | Some obj => ["paths:{" +:+ join "," (json_alias <$> obj) +:+ "}"]
     | None => []
     end ++
     ["pathsBasePath:" +:+ pathsBasePath o] ++
     json_bool "incremental" (incremental o) ++
     match tsBuildInfoFile o with
     | Some p => ["tsBuildInfoFile:" +:+ p]
     | None => []
     end ++
     ((λ kv, kv.1 +:+ ":" +:+ kv.2) <$> passthrough o))
  +:+ "}".

(** [path.resolve] on a base and a target without dot segments. *)
Definition resolve (base target : string) : string :=
  if String.prefix "/" target then target else base +:+ "/" +:+ target.

Definition relative (from to : string) : string :=
  if String.prefix (from +:+ "/") to
  then String.substring (String.length from + 1)
         (String.length to - String.length from - 1) to
  else to.

(** A compiler that always emits [emitted] and reports [diagnostics]. *)
Definition plain_tsc (emitted : list Write) (diagnostics : list Diagnostic)
    (rootNames : list string) (o : CompilerOptions) (fs : gmap string string)
    : list Write * list Diagnostic :=
  (emitted, diagnostics).

(** An incremental compiler: when its state file is on disk it emits
    nothing; otherwise it emits [emitted] and then its state. *)
Definition incremental_tsc (emitted : list Write)
    (rootNames : list string) (o : CompilerOptions) (fs : gmap string string)
    : list Write * list Diagnostic :=
  match tsBuildInfoFile o with
  | Some p =>
      if bool_decide (is_Some (fs !! p)) then ([], [])
      else (emitted ++ [mkWrite p "{}" None], [])
  | None => (emitted, [])
  end.

(** [Object.prototype], with its functions printed as an engine prints
    them. *)
Definition native (name : string) : string :=
  "function " +:+ name +:+ "() { [native code] }".
Definition object_prototype (name : string) : option string :=
  if bool_decide (name = "constructor") then Some (native "Object")
  else if bool_decide (name = "__proto__") then Some "[object Object]"
  else if bool_decide
            (name ∈ ["__defineGetter__"; "__defineSetter__"; "hasOwnProperty";
                     "__lookupGetter__"; "__lookupSetter__"; "isPrototypeOf";
                     "propertyIsEnumerable"; "toString"; "valueOf";
                     "toLocaleString"])
  then Some (native name)
  else None.

(** A compiler that places a start in lines of 80 characters, and fails
    on a start that is [undefined]. *)
Definition lineAndCharacter (file : SourceFile) (start : option nat)
    : Outcome (nat * nat) :=
  match start with
  | Some pos => Returned (pos `div` 80, pos `mod` 80)
  | None =>
      Thrown (Error "Debug Failure. False expression: position cannot precede the beginning of the file")
  end.

Definition collaborators (tsconfig : ParsedCommandLine)
    (compiler : list string → CompilerOptions → gmap string string →
                list Write * list Diagnostic) : Collaborators :=
  mkCollaborators
    (λ cwd, Some (cwd +:+ "/tsconfig.json"))
    (λ _, tsconfig)
    lineAndCharacter
    compiler
    (join "/")
    resolve
    relative
    (λ p, p)
    "node_modules/.cache/father"
    checksum
    stringify
    object_prototype.

Definition cwd : string := "/p".
Definition a_ts : string := "/p/src/a.ts".
Definition b_ts : string := "/p/src/b.ts".
Definition c_ts : string := "/p/src/c.ts".

Definition tsconfig_options : CompilerOptions :=
  mkOptions (Some true) None None
    (Some [("@/*", ["src/*"]); ("@ext/*", ["/ext/*"])]) "/p" None None
    [("strict", "true")]
    ["declaration"; "strict"; "paths"; "pathsBasePath"].

Definition tsconfig : ParsedCommandLine := mkParsed [] tsconfig_options.

(** The options after lines 70-100, with caching enabled. *)
Definition resolved_options : CompilerOptions :=
  mkOptions (Some true) None None (Some [("@/*", ["src/*"])]) "/p"
    (Some true) (Some "/p/node_modules/.cache/father/tsc/tsc.tsbuildinfo")
    [("strict", "true")]
    ["declaration"; "strict"; "paths"; "pathsBasePath"; "incremental";
     "tsBuildInfoFile"].

Definition env : ProcessEnv := mkEnv None None.

Definition disk : gmap string string :=
  {[ a_ts := "import { b } from './b'; export const a = b"; 
     b_ts := "export const b = 1";
     c_ts := "export const c = 2" ]}.

Definition world : World := mkWorld [] disk ∅ ∅ [].

Definition write_a (text : string) : Write :=
  mkWrite "/p/dist/a.d.ts" text (Some [mkSourceFile a_ts]).
Definition write_b (text : string) : Write :=
  mkWrite "/p/dist/b.d.ts" text (Some [mkSourceFile b_ts]).
Definition write_c (text : string) : Write :=
  mkWrite "/p/dist/c.d.ts" text (Some [mkSourceFile c_ts]).

Definition art_a (text : string) : Artifact := mkArtifact "a.d.ts" text a_ts.
Definition art_b (text : string) : Artifact := mkArtifact "b.d.ts" text b_ts.
Definition art_c (text : string) : Artifact := mkArtifact "c.d.ts" text c_ts.

(** The keys of lines 103-114 for the input files [a.ts] and [b.ts]. *)
Definition cache_keys (E : Collaborators) (o : CompilerOptions) : gmap string string :=
  {[ a_ts := cacheKey E a_ts "import { b } from './b'; export const a = b" o;
     b_ts := cacheKey E b_ts "export const b = 1" o ]}.

Definition sink_of (r : Outcome Sink * World) : Sink :=
  match r.1 with
  | Returned s => s
  | Thrown _ => mkSink [] ∅
  end.

Definition value_of (r : Outcome (list Artifact) * World) : list Artifact :=
  match r.1 with
  | Returned out => out
  | Thrown _ => []
  end.

(** One pass over an [output] seeded with a cached artifact of [a.ts]. *)
Definition quiet : Collaborators := collaborators tsconfig (plain_tsc [] []).
Definition seeded_pass : Outcome Sink * World :=
  foldM (writeFile quiet [a_ts; b_ts] resolved_options
           (cache_keys quiet resolved_options))
    (mkSink [art_a "cached"] ∅)
    [write_b "B1"; write_a "A1"; write_b "B2"] world.

(** A compiler that writes the declaration of [a.ts] twice in its first
    pass. *)
Definition twice : Collaborators :=
  collaborators tsconfig (incremental_tsc [write_a "old"; write_a "new"]).

(** A compiler that reports three diagnostics. *)
Definition diag (pos code : nat) (text : string) : Diagnostic :=
  mkDiagnostic (Some (mkSourceFile a_ts)) (Some pos) code text.
Definition three_diagnostics : list Diagnostic :=
  [diag 5 2322 "Type 'string' is not assignable to type 'number'.";
   diag 90 2304 "Cannot find name 'x'.";
   diag 170 4023 "Exported variable 'a' has or is using name 'T'."].
Definition failing : Collaborators :=
  collaborators tsconfig (plain_tsc [write_a "A"] three_diagnostics).

(** A compiler that reports a diagnostic without a file (a global one)
    before one with a file. *)
Definition global_diagnostic : Diagnostic :=
  mkDiagnostic None None 2318 "Cannot find global type 'Array'.".
Definition failing_globally : Collaborators :=
  collaborators tsconfig
    (plain_tsc [] [global_diagnostic; diag 90 2304 "Cannot find name 'x'."]).

(** A configuration that asks for declarations and disables emission. *)
Definition noEmit_tsconfig : ParsedCommandLine :=
  mkParsed []
    (mkOptions (Some true) (Some true) None None "/p" None None []
       ["declaration"; "noEmit"]).
Definition silent : Collaborators :=
  collaborators noEmit_tsconfig (plain_tsc [write_a "A"] []).

(** An incremental compiler on a project where [a.ts] imports [b.ts]: the
    declaration of [b.ts] is emitted first. Two successive calls. *)
Definition incremental : Collaborators :=
  collaborators tsconfig (incremental_tsc [write_b "B"; write_a "A"]).
Definition first_run : Outcome (list Artifact) * World :=
  getDeclarations incremental env [a_ts; b_ts] cwd world.

Definition tsBuildInfo : string :=
  "/p/node_modules/.cache/father/tsc/tsc.tsbuildinfo".

End Demo.

(** * Further runs of the definitions *)

Module Scenarios.

(** A configuration with an alias that has no target. *)
Definition untargeted_tsconfig : ParsedCommandLine :=
  mkParsed []
    (mkOptions (Some true) None None
       (Some [("@/*", ["src/*"]); ("@none/*", []); ("@ext/*", ["/ext/*"])])
       "/p" None None [] ["declaration"; "paths"; "pathsBasePath"]).
Definition untargeted : Collaborators :=
  Demo.collaborators untargeted_tsconfig (Demo.plain_tsc [Demo.write_a "A"] []).

(** A project of one file, with collaborators that are cheap to run:
    the content is its own hash, and the serializer only tells whether the
    options are incremental. *)
Definition small_with (hash : string → string) (tsconfig : ParsedCommandLine)
    (compiler : list string → CompilerOptions → gmap string string →
                list Write * list Diagnostic) : Collaborators :=
  mkCollaborators
    (λ cwd, Some (cwd +:+ "/t"))
    (λ _, tsconfig)
    Demo.lineAndCharacter
    compiler
    (join "/")
    Demo.resolve
    Demo.relative
    (λ p, p)
    "c"
    hash
    (λ o, if incremental o is Some true then "{i}" else "{}")
    Demo.object_prototype.
Definition small := small_with (λ c, c).

Definition bare_tsconfig : ParsedCommandLine :=
  mkParsed []
    (mkOptions (Some true) None None None "/p" None None [] ["declaration"]).

(** The options after lines 70-100, with caching enabled. *)
Definition small_options : CompilerOptions :=
  mkOptions (Some true) None None None "/p" (Some true)
    (Some "/p/c/tsc/tsc.tsbuildinfo") []
    ["declaration"; "incremental"; "tsBuildInfoFile"].

Definition a_ts : string := "/p/a.ts".
Definition write_a (text : string) : Write :=
  mkWrite "/p/d/a.d.ts" text (Some [mkSourceFile a_ts]).
Definition art_a (text : string) : Artifact := mkArtifact "a.d.ts" text a_ts.
Definition a_key : string := "/p/a.ts:1:{i}".

Definition small_world : World := mkWorld [] {[ a_ts := "1" ]} ∅ ∅ [].
(** The same project with the cache directory in place. *)
Definition prepared_world : World :=
  mkWorld [] {[ a_ts := "1" ]} {[ "/p/c/tsc" ]} ∅ [].
(** The same project with a declaration of [a.ts] in the cache store. *)
Definition warm_world : World :=
  mkWorld [] {[ a_ts := "1" ]} ∅ {[ a_key := [art_a "cached"] ]} [].

(** A compiler that emits the declaration of [a.ts] in every pass, one
    that emits nothing, and one that reports a diagnostic. *)
Definition emitting : Collaborators :=
  small bare_tsconfig (Demo.plain_tsc [write_a "A"] []).
Definition idle : Collaborators :=
  small bare_tsconfig (Demo.plain_tsc [] []).
Definition complaining : Collaborators :=
  small bare_tsconfig
    (Demo.plain_tsc []
       [mkDiagnostic (Some (mkSourceFile a_ts)) (Some 3) 2304
          "Cannot find name 'x'."]).

(** A hash of bounded length: the first eight characters. *)
Definition short_sighted : Collaborators :=
  small_with (String.substring 0 8) bare_tsconfig (Demo.plain_tsc [] []).

(** A configuration with three aliases: one inside the project root, one
    outside, and one whose second target is outside. *)
Definition aliased_tsconfig : ParsedCommandLine :=
  mkParsed []
    (mkOptions (Some true) None None
       (Some [("@/*", ["src/*"]); ("@ext/*", ["/ext/*"]);
              ("@mixed/*", ["src/*"; "/ext/*"])])
       "/p" None None [] ["declaration"; "paths"; "pathsBasePath"]).
Definition aliased : Collaborators :=
  small aliased_tsconfig (Demo.plain_tsc [] []).
(** Its options after lines 70-100, with caching enabled. *)
Definition mixed_options : CompilerOptions :=
  mkOptions (Some true) None None
    (Some [("@/*", ["src/*"]); ("@mixed/*", ["src/*"; "/ext/*"])])
    "/p" (Some true) (Some "/p/c/tsc/tsc.tsbuildinfo") []
    ["declaration"; "paths"; "pathsBasePath"; "incremental"; "tsBuildInfoFile"].

(** A project with a second file, [b.ts]. *)
Definition b_ts : string := "/p/b.ts".
Definition write_b (text : string) : Write :=
  mkWrite "/p/d/b.d.ts" text (Some [mkSourceFile b_ts]).
Definition art_b (text : string) : Artifact := mkArtifact "b.d.ts" text b_ts.
Definition two_files : World :=
  mkWorld [] {[ a_ts := "1"; b_ts := "2" ]} ∅ ∅ [].


Definition b_key : string := "/p/b.ts:2:{i}".

(** An incremental compiler that emits the declarations of [a.ts] and of
    [b.ts], which [a.ts] imports, in its first pass. The world after a first
    call on [two_files] that requests [a.ts] alone. *)
Definition sharing : Collaborators :=
  small bare_tsconfig (Demo.incremental_tsc [write_a "A"; write_b "B"]).
Definition after_sharing : World :=
  mkWorld []
    {[ a_ts := "1"; b_ts := "2"; "/p/c/tsc/tsc.tsbuildinfo" := "{}" ]}
    {[ "/p/c/tsc"; "/p/c"; "/p"; "/" ]}
    {[ a_key := [art_a "A"]; b_key := [art_b "B"] ]}
    [createIncrementalProgram [a_ts] small_options; emitReturned []].

Definition cwd : string := "/p".
Definition cold_run : Outcome (list Artifact) * World :=
  getDeclarations emitting Demo.env [a_ts] cwd small_world.
Definition warm_run : Outcome (list Artifact) * World :=
  getDeclarations emitting Demo.env [a_ts] cwd warm_world.
Definition idle_run : Outcome (list Artifact) * World :=
  getDeclarations idle Demo.env [a_ts] cwd warm_world.
Definition complaining_run : Outcome (list Artifact) * World :=
  getDeclarations complaining Demo.env [a_ts] cwd small_world.

Definition aliased_run : Outcome (list Artifact) * World :=
  getDeclarations aliased Demo.env [] cwd small_world.

Definition sharing_later : Outcome (list Artifact) * World :=
  getDeclarations sharing Demo.env [b_ts] cwd after_sharing.


End Scenarios.

(** * Properties *)

(** Closes an equation between closed terms by evaluating both sides. *)
Ltac by_evaluation :=
  lazymatch goal with |- ?x = ?y => exact (eq_refl x <: x = y) end.

(** ** Running computations *)

Lemma bind_Returned {A B} (m : M A) (f : A → M B) w a w1 :
  m w = (Returned a, w1) → (m ≫= f) w = f a w1.
Proof. intros H. unfold mbind, M_bind. by rewrite H. Qed.

Lemma bind_Thrown {A B} (m : M A) (f : A → M B) w e w1 :
  m w = (Thrown e, w1) → (m ≫= f) w = (Thrown e, w1).
Proof. intros H. unfold mbind, M_bind. by rewrite H. Qed.

Lemma bind_inv {A B} (m : M A) (f : A → M B) w r w' :
  (m ≫= f) w = (r, w') →
  (∃ a w1, m w = (Returned a, w1) ∧ f a w1 = (r, w')) ∨
  (∃ e, m w = (Thrown e, w') ∧ r = Thrown e).
Proof.
  unfold mbind, M_bind. destruct (m w) as [[a|e] w1]; intros H.
  - left. eauto.
  - right. exists e. by inversion H.
Qed.

Lemma bind_Returned_inv {A B} (m : M A) (f : A → M B) w b w' :
  (m ≫= f) w = (Returned b, w') →
  ∃ a w1, m w = (Returned a, w1) ∧ f a w1 = (Returned b, w').
Proof.
  intros H. apply bind_inv in H as [H|(e & _ & H)]; [done | discriminate].
Qed.

Lemma foldM_app {A B} (f : B → A → M B) b l1 l2 w :
  foldM f b (l1 ++ l2) w = (b' ← foldM f b l1; foldM f b' l2) w.
Proof.
  revert b w. induction l1 as [|a l1 IH]; intros b w; simpl.
  - reflexivity.
  - unfold mbind, M_bind. destruct (f b a w) as [[b1|e] w1]; [|done].
    rewrite IH. reflexivity.
Qed.

(** ** The identity of an artifact in [output] *)

Lemma same_out_identity ret out : same_out ret out ↔ identity out = identity ret.
Proof. unfold same_out, identity. split; [intros [-> ->]; done | by inversion 1]. Qed.

Lemma upsert_found ret l i out :
  list_find (same_out ret) l = Some (i, out) → upsert ret l = <[i := ret]> l.
Proof. intros H. unfold upsert. by rewrite H. Qed.


Lemma upsert_identities ret l :
  identity <$> upsert ret l =
  if bool_decide (identity ret ∈ identity <$> l)
  then identity <$> l else (identity <$> l) ++ [identity ret].
Proof.
  unfold upsert.
  destruct (list_find (same_out ret) l) as [[i out]|] eqn:Hf.
  - apply list_find_Some in Hf as (Hi & Hs & _).
    apply same_out_identity in Hs.
    rewrite bool_decide_eq_true_2.
    + rewrite list_fmap_insert. apply list_insert_id.
      rewrite list_lookup_fmap, Hi. simpl. by rewrite Hs.
    + rewrite <- Hs. apply list_elem_of_fmap_2. eapply list_elem_of_lookup_2, Hi.
  - rewrite bool_decide_eq_false_2.
    + by rewrite fmap_app.
    + intros Hin. apply list_elem_of_fmap in Hin as (x & Hx & Hxl).
      apply list_find_None in Hf. rewrite Forall_forall in Hf.
      apply (Hf x Hxl). apply same_out_identity. done.
Qed.

Lemma upsert_NoDup ret l :
  NoDup (identity <$> l) → NoDup (identity <$> upsert ret l).
Proof.
  intros Hnd. rewrite upsert_identities. case_bool_decide as Hin; [done|].
  apply NoDup_app. split_and!; [done | | apply NoDup_singleton].
  intros x Hx Hx'. apply list_elem_of_singleton in Hx'. by subst.
Qed.

Lemma upsert_prefix ret l :
  (identity <$> l) `prefix_of` (identity <$> upsert ret l).
Proof.
  rewrite upsert_identities. case_bool_decide; [done|]. by apply prefix_app_r.
Qed.

Lemma upsert_elem_of ret l : ret ∈ upsert ret l.
Proof.
  unfold upsert.
  destruct (list_find (same_out ret) l) as [[i out]|] eqn:Hf.
  - apply list_find_Some in Hf as (Hi & _ & _).
    apply list_elem_of_insert. eapply lookup_lt_Some, Hi.
  - apply elem_of_app. right. by apply list_elem_of_singleton.
Qed.

Lemma upsert_elem_of_inv ret l a : a ∈ upsert ret l → a = ret ∨ a ∈ l.
Proof.
  unfold upsert.
  destruct (list_find (same_out ret) l) as [[i out]|] eqn:Hf.
  - intros Ha. apply list_elem_of_lookup in Ha as [j Hj].
    destruct (decide (i = j)) as [->|Hne].
    + apply list_find_Some in Hf as (Hi & _ & _).
      rewrite list_lookup_insert_eq in Hj by (eapply lookup_lt_Some, Hi).
      left. congruence.
    + rewrite list_lookup_insert_ne in Hj by done.
      right. eapply list_elem_of_lookup_2, Hj.
  - rewrite elem_of_app, list_elem_of_singleton. tauto.
Qed.

Lemma upsert_keeps ret l a :
  a ∈ l → identity a ≠ identity ret → a ∈ upsert ret l.
Proof.
  intros Ha Hne. unfold upsert.
  destruct (list_find (same_out ret) l) as [[i out]|] eqn:Hf.
  - apply list_find_Some in Hf as (Hi & Hs & _).
    apply list_elem_of_lookup in Ha as [j Hj].
    apply list_elem_of_lookup. exists j.
    rewrite list_lookup_insert_ne; [done|].
    intros ->. apply Hne. apply same_out_identity in Hs. congruence.
  - apply elem_of_app. by left.
Qed.

(** With distinct identities, the entry a write replaces is the one at the
    position where its identity already is. *)
Lemma upsert_replaces ret l i out :
  NoDup (identity <$> l) → l !! i = Some out → identity out = identity ret →
  upsert ret l = <[i := ret]> l.
Proof.
  intros Hnd Hi Hid. unfold upsert.
  destruct (list_find (same_out ret) l) as [[j out']|] eqn:Hf.
  - apply list_find_Some in Hf as (Hj & Hs & _).
    apply same_out_identity in Hs.
    assert (i = j) as ->; [|done].
    eapply NoDup_lookup; [exact Hnd | |].
    + rewrite list_lookup_fmap, Hi. simpl. reflexivity.
    + rewrite list_lookup_fmap, Hj. simpl. congruence.
  - apply list_find_None in Hf. rewrite Forall_forall in Hf.
    exfalso. apply (Hf out); [eapply list_elem_of_lookup_2, Hi|].
    by apply same_out_identity.
Qed.

(** ** One call of [tsHost.writeFile] *)

Section writeFile_facts.
Context (E : Collaborators) (inputFiles : list string) (opts : CompilerOptions)
        (cacheKeys : gmap string string).

(** The call, case by case. *)
Lemma writeFile_eq s wr w :
  writeFile E inputFiles opts cacheKeys s wr w =
  match w_sourceFiles wr with
  | Some [] => (Thrown TypeError, w)
  | _ =>
      if bool_decide (tsBuildInfoFile opts = Some (w_fileName wr))
      then
        if bool_decide (dirname (w_fileName wr) ∈ dirs w)
        then (Returned s, set_files (insert (w_fileName wr) (w_content wr)) w)
        else (Thrown (ENOENT (w_fileName wr)), w)
      else
        match attributed opts wr with
        | None => (Returned s, w)
        | Some ret =>
            match sourceKey E opts cacheKeys (files w) (sourceFile ret) with
            | Some key =>
                (Returned
                   (mkSink
                      (if bool_decide (sourceFile ret ∈ inputFiles)
                       then upsert ret (output s) else output s)
                      (cache_push key ret (cacheRets s))), w)
            | None => (Thrown (ENOENT (sourceFile ret)), w)
            end
        end
  end.
Proof.
  unfold writeFile, attributed, sourceKey.
  destruct (w_sourceFiles wr) as [[|sf sfs]|]; simpl; [done| |].
  - unfold mbind, M_bind, mret, M_ret; simpl.
    case_bool_decide.
    { unfold writeFileSync. by case_bool_decide. }
    destruct (truthy (fileName sf)); [|done]. simpl.
    destruct (cacheKeys !! fileName sf) as [k|]; simpl.
    + destruct (truthy k); [done|].
      unfold readFileSync. destruct (files w !! fileName sf); done.
    + destruct (Object_prototype E (fileName sf)); [done|].
      unfold readFileSync. destruct (files w !! fileName sf); done.
  - unfold mbind, M_bind, mret, M_ret; simpl.
    case_bool_decide; [|done].
    unfold writeFileSync. by case_bool_decide.
Qed.


Lemma writeFile_Returned s wr w s' w' :
  writeFile E inputFiles opts cacheKeys s wr w = (Returned s', w') →
  output s' = from_option (λ ret, upsert ret (output s)) (output s)
                (collected inputFiles opts wr)
  ∧ logs w' = logs w ∧ store w' = store w ∧ compiler w' = compiler w
  ∧ dirs w' = dirs w.
Proof.
  rewrite writeFile_eq. unfold collected.
  destruct (w_sourceFiles wr) as [[|sf sfs]|] eqn:Hsf; [done | |].
  - case_bool_decide as Hb.
    + case_bool_decide; [|done].
      intros [= <- <-]. unfold attributed. rewrite bool_decide_eq_true_2 by done.
      done.
    + destruct (attributed opts wr) as [ret|]; [|by intros [= <- <-]].
      destruct (sourceKey _ _ _ _ _); [|done]. intros [= <- <-]. simpl.
      case_bool_decide; done.
  - case_bool_decide as Hb.
    + case_bool_decide; [|done].
      intros [= <- <-]. unfold attributed. rewrite bool_decide_eq_true_2 by done.
      done.
    + destruct (attributed opts wr) as [ret|]; [|by intros [= <- <-]].
      destruct (sourceKey _ _ _ _ _); [|done]. intros [= <- <-]. simpl.
      case_bool_decide; done.
Qed.

Lemma writeFile_frame s wr w r w' :
  writeFile E inputFiles opts cacheKeys s wr w = (r, w') →
  logs w' = logs w ∧ store w' = store w ∧ compiler w' = compiler w
  ∧ dirs w' = dirs w.
Proof.
  rewrite writeFile_eq.
  destruct (w_sourceFiles wr) as [[|sf sfs]|];
    repeat first [ case_bool_decide | case_match ];
    by intros [= <- <-].
Qed.

(** The [output] after a pass is the [upsert] of the collected artifacts,
    in the order of the writes. *)
Lemma writes_output writes s w s' w' :
  foldM (writeFile E inputFiles opts cacheKeys) s writes w = (Returned s', w') →
  output s' = foldl (λ out ret, upsert ret out) (output s)
                (omap (collected inputFiles opts) writes).
Proof.
  revert s w. induction writes as [|wr writes IH]; intros s w; simpl.
  - by intros [= <- <-].
  - intros H. apply bind_Returned_inv in H as (s1 & w1 & H1 & H2).
    apply writeFile_Returned in H1 as (Ho & _).
    apply IH in H2. rewrite H2, Ho.
    destruct (collected inputFiles opts wr); done.
Qed.

Lemma writes_frame writes s w r w' :
  foldM (writeFile E inputFiles opts cacheKeys) s writes w = (r, w') →
  logs w' = logs w ∧ store w' = store w ∧ compiler w' = compiler w
  ∧ dirs w' = dirs w.
Proof.
  revert s w. induction writes as [|wr writes IH]; intros s w; simpl.
  - by intros [= <- <-].
  - intros H. apply bind_inv in H as [(s1 & w1 & H1 & H2)|(e & H1 & _)].
    + apply writeFile_frame in H1 as (? & ? & ? & ?).
      apply IH in H2 as (? & ? & ? & ?). split_and!; congruence.
    + by apply writeFile_frame in H1.
Qed.

End writeFile_facts.

(** ** Deduplication in [output] *)

Lemma foldl_upsert_NoDup rets out :
  NoDup (identity <$> out) →
  NoDup (identity <$> foldl (λ out ret, upsert ret out) out rets).
Proof.
  revert out. induction rets as [|r rets IH]; intros out Hnd; simpl; [done|].
  by apply IH, upsert_NoDup.
Qed.

Lemma foldl_upsert_prefix rets out :
  (identity <$> out) `prefix_of`
  (identity <$> foldl (λ out ret, upsert ret out) out rets).
Proof.
  revert out. induction rets as [|r rets IH]; intros out; simpl; [done|].
  etrans; [apply (upsert_prefix r)|apply IH].
Qed.

Lemma foldl_upsert_keeps rets out a :
  a ∈ out → Forall (λ r, identity r ≠ identity a) rets →
  a ∈ foldl (λ out ret, upsert ret out) out rets.
Proof.
  revert out. induction rets as [|r rets IH]; intros out Ha Hall; simpl; [done|].
  inversion Hall; subst. apply IH; [|done]. apply upsert_keeps; [done|congruence].
Qed.

(** C1, as amended. One pass of writes through the interceptor, started
    from an [output] whose entries (the ones seeded from cache hits, lines
    161-166) have pairwise distinct ([file], [sourceFile]) identities, ends
    with an [output] (the list line 212 returns) that has pairwise distinct
    identities; every position keeps its identity through the pass; the
    entry for an identity holds the artifact of the last write collected for
    it; and a write collected for an identity that is already at position
    [i] puts its artifact at position [i]. *)
Theorem output_dedup (E : Collaborators) (inputFiles : list string)
    (opts : CompilerOptions) (cacheKeys : gmap string string)
    (s : Sink) (writes : list Write) (w : World) (s' : Sink) (w' : World) :
  foldM (writeFile E inputFiles opts cacheKeys) s writes w = (Returned s', w') →
  NoDup (identity <$> output s) →
  NoDup (identity <$> output s')
  ∧ (identity <$> output s) `prefix_of` (identity <$> output s')
  ∧ (∀ before wr after ret,
       writes = before ++ wr :: after →
       collected inputFiles opts wr = Some ret →
       Forall (λ wr', ∀ ret', collected inputFiles opts wr' = Some ret' →
                              identity ret' ≠ identity ret) after →
       ret ∈ output s')
  ∧ (∀ wr ret i out,
       writes = [wr] →
       collected inputFiles opts wr = Some ret →
       output s !! i = Some out → identity out = identity ret →
       output s' = <[i := ret]> (output s)).
Proof.
  intros Hrun Hnd. apply writes_output in Hrun. rewrite Hrun. clear Hrun.
  split_and!.
  - by apply foldl_upsert_NoDup.
  - apply foldl_upsert_prefix.
  - intros before wr after ret -> Hc Hafter.
    rewrite omap_app. simpl. rewrite Hc, foldl_app. simpl.
    apply foldl_upsert_keeps; [apply upsert_elem_of|].
    induction Hafter as [|wr' after Hwr' _ IH]; simpl; [constructor|].
    destruct (collected inputFiles opts wr') as [ret'|] eqn:Hc'; [|exact IH].
    constructor; [by apply Hwr'|exact IH].
  - intros wr ret i out -> Hc Hi Hid. simpl. rewrite Hc. simpl.
    by eapply upsert_replaces.
Qed.

Lemma output_dedup_witness :
  output (Demo.sink_of Demo.seeded_pass) = [Demo.art_a "A1"; Demo.art_b "B2"]
  ∧ NoDup (identity <$> output (Demo.sink_of Demo.seeded_pass))
  ∧ Demo.art_b "B2" ∈ output (Demo.sink_of Demo.seeded_pass).
Proof.
  assert (Hrun : foldM (writeFile Demo.quiet [Demo.a_ts; Demo.b_ts]
                          Demo.resolved_options
                          (Demo.cache_keys Demo.quiet Demo.resolved_options))
                   (mkSink [Demo.art_a "cached"] ∅)
                   [Demo.write_b "B1"; Demo.write_a "A1"; Demo.write_b "B2"]
                   Demo.world
                 = (Returned (Demo.sink_of Demo.seeded_pass), Demo.seeded_pass.2))
    by by_evaluation.
  assert (Hnd : NoDup (identity <$> output (mkSink [Demo.art_a "cached"] ∅)))
    by (apply NoDup_singleton).
  destruct (output_dedup _ _ _ _ _ _ _ _ _ Hrun Hnd) as (H1 & _ & H3 & _).
  split_and!; [by_evaluation | exact H1 |].
  apply (H3 [Demo.write_b "B1"; Demo.write_a "A1"] (Demo.write_b "B2") []);
    [reflexivity | by_evaluation | constructor].
Defined.

(** C1, as stated, fails for entries seeded from cache hits. A first call
    whose pass writes the declaration of [a.ts] twice returns one entry (the
    later write), but caches both (line 156 appends); the second call seeds
    [output] with both (line 164 appends) and returns two artifacts for the
    same ([file], [sourceFile]) pair. *)
Lemma seeded_duplicates :
  let first := getDeclarations Demo.twice Demo.env [Demo.a_ts] Demo.cwd Demo.world in
  let second := getDeclarations Demo.twice Demo.env [Demo.a_ts] Demo.cwd first.2 in
  first.1 = Returned [Demo.art_a "new"]
  ∧ second.1 = Returned [Demo.art_a "old"; Demo.art_a "new"]
  ∧ identity (Demo.art_a "old") = identity (Demo.art_a "new")
  ∧ ¬ NoDup (identity <$> Demo.value_of second).
Proof.
  split_and!; [vm_compute; reflexivity .. |].
  intros Hnd.
  assert (Heq : identity <$> Demo.value_of
            (getDeclarations Demo.twice Demo.env [Demo.a_ts] Demo.cwd
               (getDeclarations Demo.twice Demo.env [Demo.a_ts] Demo.cwd Demo.world).2)
          = [("a.d.ts", Demo.a_ts); ("a.d.ts", Demo.a_ts)])
    by (vm_compute; reflexivity).
  rewrite Heq in Hnd. apply NoDup_cons in Hnd as [Hnotin _].
  apply Hnotin. by apply list_elem_of_singleton.
Qed.

(** ** The phases of [getDeclarations] *)

Section phases.
Context (E : Collaborators) (env : ProcessEnv).

Lemma cacheKey_eq f c o :
  cacheKey E f c o = f +:+ ":" +:+ getContentHash E c +:+ ":" +:+ JSON_stringify E o.
Proof. reflexivity. Qed.

Lemma append_colon_nonempty f rest : f +:+ ":" +:+ rest ≠ "".
Proof. destruct f; discriminate. Qed.

Lemma cacheKey_truthy f c o : truthy (cacheKey E f c o) = true.
Proof.
  unfold truthy. apply bool_decide_eq_true_2. rewrite cacheKey_eq.
  apply append_colon_nonempty.
Qed.

(** Lines 103-114 read the input files and change nothing; the map has a
    key for each input file and for nothing else. *)
Lemma computeCacheKeys_acc inputFiles opts (acc : gmap string string) w r w' :
  foldM (λ ret file,
           c ← readFileSync file;
           mret (<[file := cacheKey E file c opts]> ret)) acc inputFiles w = (r, w') →
  w' = w ∧
  ∀ keys, r = Returned keys →
    ∀ f, (f ∈ inputFiles →
          ∃ c, files w !! f = Some c ∧ keys !! f = Some (cacheKey E f c opts))
         ∧ (f ∉ inputFiles → keys !! f = acc !! f).
Proof.
  revert acc. induction inputFiles as [|file l IH]; intros acc; simpl.
  - intros [= <- <-]. split; [done|]. intros keys [= <-] f. split; [|done].
    intros Hf. by apply elem_of_nil in Hf.
  - unfold mbind at 1, M_bind at 1. unfold mbind at 1, M_bind at 1.
    unfold readFileSync at 1.
    destruct (files w !! file) as [c|] eqn:Hc; [|by intros [= <- <-]].
    unfold mret at 1, M_ret at 1. intros H. apply IH in H as [-> H].
    split; [done|]. intros keys Hr f. specialize (H keys Hr).
    split.
    + intros Hf. destruct (decide (f ∈ l)) as [Hin|Hnin].
      * by apply (H f).
      * apply elem_of_cons in Hf as [->|]; [|done].
        exists c. split; [done|].
        destruct (H file) as [_ H2]. rewrite (H2 Hnin). apply lookup_insert_eq.
    + intros Hf. apply not_elem_of_cons in Hf as [Hne Hnin].
      destruct (H f) as [_ H2]. rewrite (H2 Hnin). by apply lookup_insert_ne.
Qed.

Lemma computeCacheKeys_spec inputFiles opts w r w' :
  computeCacheKeys E inputFiles opts w = (r, w') →
  w' = w ∧
  ∀ keys, r = Returned keys →
    ∀ f, (f ∈ inputFiles →
          ∃ c, files w !! f = Some c ∧ keys !! f = Some (cacheKey E f c opts))
         ∧ (f ∉ inputFiles → keys !! f = None).
Proof.
  intros H. apply computeCacheKeys_acc in H as [-> H]. split; [done|].
  intros keys Hr f. destruct (H keys Hr f) as [H1 H2]. split; [done|].
  intros Hf. rewrite (H2 Hf). apply lookup_empty.
Qed.

Lemma useCacheFirst_spec ec inputFiles keys out0 w :
  useCacheFirst ec inputFiles keys out0 w =
  (Returned (out0 ++ seeds ec (store w) keys inputFiles), w).
Proof.
  revert out0. induction inputFiles as [|f l IH]; intros out0; simpl.
  - unfold mret, M_ret. by rewrite app_nil_r.
  - unfold useCacheFirst in *. simpl.
    unfold mbind at 1, M_bind at 1. unfold mbind at 1, M_bind at 1.
    destruct (keys !! f) as [k|]; simpl.
    + unfold getSync. destruct ec; simpl.
      * destruct (store w !! k) as [cached|]; simpl;
          unfold mret at 1, M_ret at 1; rewrite IH; [by rewrite <- app_assoc|done].
      * unfold mret at 1, M_ret at 1. by rewrite IH.
    + unfold mret at 1 2, M_ret at 1 2. by rewrite IH.
Qed.

(** Line 209: every constructed entry is written under its key. *)
Lemma saveCache_list ec (l : list (string * list Artifact)) w :
  foldM (λ _ kv, setSync ec kv.1 kv.2) () l w =
  (Returned (), if ec then set_store (λ st, foldl (λ st kv, <[kv.1 := kv.2]> st) st l) w
                else w).
Proof.
  revert w. induction l as [|[k v] l IH]; intros w; simpl.
  - destruct ec; [by destruct w|done].
  - unfold mbind, M_bind. unfold setSync at 1. rewrite IH.
    destruct ec; [by destruct w|done].
Qed.

Lemma foldl_insert_lookup (l : list (string * list Artifact))
    (st : gmap string (list Artifact)) k :
  NoDup l.*1 →
  foldl (λ st kv, <[kv.1 := kv.2]> st) st l !! k =
  match list_to_map (M := gmap string (list Artifact)) l !! k with
  | Some v => Some v
  | None => st !! k
  end.
Proof.
  revert st. induction l as [|[k' v] l IH]; intros st Hnd; simpl.
  - by rewrite lookup_empty.
  - apply NoDup_cons in Hnd as [Hnotin Hnd]. rewrite IH by done.
    destruct (decide (k' = k)) as [->|Hne].
    + rewrite lookup_insert_eq.
      rewrite (not_elem_of_list_to_map_1 _ k) by done.
      by rewrite lookup_insert_eq.
    + rewrite !lookup_insert_ne by done. done.
Qed.

Lemma saveCache_spec ec (m : gmap string (list Artifact)) w :
  ∃ w', saveCache ec m w = (Returned (), w')
    ∧ logs w' = logs w ∧ files w' = files w ∧ dirs w' = dirs w
    ∧ compiler w' = compiler w
    ∧ store w' = if ec then m ∪ store w else store w.
Proof.
  unfold saveCache. rewrite saveCache_list. eexists. split; [done|].
  destruct ec; simpl; [|done]. split_and!; try done.
  apply map_eq. intros k.
  rewrite foldl_insert_lookup by apply NoDup_fst_map_to_list.
  rewrite list_to_map_to_list, lookup_union.
  destruct (m !! k), (store w !! k); done.
Qed.

(** Logging the diagnostics (lines 193-204) stops at the first one that
    throws. *)
Lemma reportDiagnostic_eq cwd (d : Diagnostic) w :
  reportDiagnostic E cwd d w =
  match reportOutcome E cwd d with
  | inr entry => (Returned (), set_logs (λ l, l ++ [entry]) w)
  | inl e => (Thrown e, w)
  end.
Proof.
  unfold reportDiagnostic, reportOutcome. destruct (d_file d) as [file|]; [|done].
  by destruct (ts_getLineAndCharacterOfPosition E file (d_start d)).
Qed.

Lemma log_diagnostics cwd (ds : list Diagnostic) w :
  foldM (λ _ d, reportDiagnostic E cwd d) () ds w =
  (match reportFailure E cwd ds with
   | None => Returned ()
   | Some e => Thrown e
   end,
   set_logs (λ l, l ++ reported E cwd ds) w).
Proof.
  revert w. induction ds as [|d ds IH]; intros w; simpl.
  - unfold mret, M_ret, set_logs. rewrite app_nil_r. by destruct w.
  - unfold mbind, M_bind. rewrite reportDiagnostic_eq.
    destruct (reportOutcome E cwd d) as [e|entry]; simpl.
    + unfold set_logs. rewrite app_nil_r. by destruct w.
    + rewrite IH. unfold set_logs. simpl. rewrite <- app_assoc.
      by destruct (reportFailure E cwd ds).
Qed.

Lemma located_reportOutcome cwd d :
  located E d = true ↔ ∃ entry, reportOutcome E cwd d = inr entry.
Proof.
  unfold located, reportOutcome. destruct (d_file d) as [file|].
  - destruct (ts_getLineAndCharacterOfPosition E file (d_start d)).
    + split; [eauto|done].
    + split; [done|by intros [? ?]].
  - split; [done|by intros [? ?]].
Qed.

Lemma reportFailure_located cwd (ds : list Diagnostic) :
  forallb (located E) ds = true ↔ reportFailure E cwd ds = None.
Proof.
  induction ds as [|d ds IH]; simpl; [done|].
  rewrite andb_true_iff, IH, (located_reportOutcome cwd).
  destruct (reportOutcome E cwd d) as [e|entry].
  - split; [by intros [[? ?] _]|done].
  - split; [by intros [_ ?]|eauto].
Qed.

Lemma reported_located cwd (ds : list Diagnostic) :
  forallb (located E) ds = true → length (reported E cwd ds) = length ds.
Proof.
  induction ds as [|d ds IH]; simpl; [done|].
  intros [Hd Hds]%andb_true_iff.
  apply (located_reportOutcome cwd) in Hd as [entry ->]. simpl. by rewrite IH.
Qed.

End phases.

(** ** The control flow of [getDeclarations] *)

Section structure.
Context (E : Collaborators) (env : ProcessEnv).

(** Only the log changes while the aliases are filtered, and it only
    grows; the outcome does not depend on the world. *)
Lemma removeOutOfCwd_frame cwd base obj item w r w' :
  removeOutOfCwd E cwd base obj item w = (r, w') →
  files w' = files w ∧ store w' = store w ∧ compiler w' = compiler w
  ∧ dirs w' = dirs w ∧ (∃ more, logs w' = logs w ++ more)
  ∧ ∀ v, ∃ v', removeOutOfCwd E cwd base obj item v = (r, v').
Proof.
  unfold removeOutOfCwd.
  destruct (get_prop item obj) as [[|target targets]|].
  - intros [= <- <-]. split_and!; try done; [by exists []; rewrite app_nil_r|].
    intros v. by eexists.
  - destruct (inCwd E cwd base target).
    + intros [= <- <-]. split_and!; try done; [by exists []; rewrite app_nil_r|].
      intros v. by eexists.
    + intros [= <- <-]. split_and!; try done; [by eexists|].
      intros v. by eexists.
  - intros [= <- <-]. split_and!; try done; [by exists []; rewrite app_nil_r|].
    intros v. by eexists.
Qed.

Lemma removeOutOfCwd_fold_frame cwd base items obj w r w' :
  foldM (removeOutOfCwd E cwd base) obj items w = (r, w') →
  files w' = files w ∧ store w' = store w ∧ compiler w' = compiler w
  ∧ dirs w' = dirs w ∧ (∃ more, logs w' = logs w ++ more)
  ∧ ∀ v, ∃ v', foldM (removeOutOfCwd E cwd base) obj items v = (r, v').
Proof.
  revert obj w. induction items as [|item items IH]; intros obj w; simpl.
  - intros [= <- <-]. split_and!; try done; [by exists []; rewrite app_nil_r|].
    intros v. by eexists.
  - intros H. apply bind_inv in H as [(obj1 & w1 & H1 & H2)|(e & H1 & ->)].
    + apply removeOutOfCwd_frame in H1 as (? & ? & ? & ? & [m1 ?] & Hv1).
      apply IH in H2 as (? & ? & ? & ? & [m2 ?] & Hv2).
      split_and!; try congruence.
      * exists (m1 ++ m2). rewrite app_assoc. congruence.
      * intros v. destruct (Hv1 v) as [v1 Hv1']. destruct (Hv2 v1) as [v2 Hv2'].
        exists v2. by rewrite (bind_Returned _ _ _ _ _ Hv1').
    + apply removeOutOfCwd_frame in H1 as (? & ? & ? & ? & ? & Hv1).
      split_and!; try done.
      intros v. destruct (Hv1 v) as [v1 Hv1'].
      exists v1. by rewrite (bind_Thrown _ _ _ _ _ Hv1').
Qed.

Lemma removeOutOfCwdPaths_frame cwd o w r w' :
  removeOutOfCwdPaths E cwd o w = (r, w') →
  files w' = files w ∧ store w' = store w ∧ compiler w' = compiler w
  ∧ dirs w' = dirs w ∧ (∃ more, logs w' = logs w ++ more)
  ∧ ∀ v, ∃ v', removeOutOfCwdPaths E cwd o v = (r, v').
Proof.
  unfold removeOutOfCwdPaths. destruct (paths o) as [obj|].
  - intros H. apply bind_inv in H as [(obj1 & w1 & H1 & H2)|(e & H1 & ->)].
    + injection H2 as <- <-.
      apply removeOutOfCwd_fold_frame in H1 as (? & ? & ? & ? & ? & Hv).
      split_and!; try done. intros v. destruct (Hv v) as [v1 Hv1].
      exists v1. by rewrite (bind_Returned _ _ _ _ _ Hv1).
    + apply removeOutOfCwd_fold_frame in H1 as (? & ? & ? & ? & ? & Hv).
      split_and!; try done. intros v. destruct (Hv v) as [v1 Hv1].
      exists v1. by rewrite (bind_Thrown _ _ _ _ _ Hv1).
  - intros [= <- <-]. split_and!; try done; [by exists []; rewrite app_nil_r|].
    intros v. by eexists.
Qed.

(** [compilePass], phase by phase. *)
Lemma compilePass_eq ec inputFiles cwd opts out0 w :
  compilePass E ec inputFiles cwd opts out0 w =
  match computeCacheKeys E inputFiles opts w with
  | (Thrown e, w0) => (Thrown e, w0)
  | (Returned keys, w0) =>
      let result := tsc E inputFiles opts (files w0) in
      match foldM (writeFile E inputFiles opts keys)
              (mkSink (out0 ++ seeds ec (store w0) keys inputFiles) ∅) result.1
              (set_compiler (λ l, l ++ [createIncrementalProgram inputFiles opts]) w0)
      with
      | (Thrown e, w2) => (Thrown e, w2)
      | (Returned s, w2) =>
          let w3 := set_compiler (λ l, l ++ [emitReturned result.2]) w2 in
          match result.2 with
          | _ :: _ =>
              (Thrown (default (Error "Declaration generation failed.")
                         (reportFailure E cwd result.2)),
               set_logs (λ l, l ++ reported E cwd result.2) w3)
          | [] => (saveCache ec (cacheRets s) ≫= λ _, mret (output s)) w3
          end
      end
  end.
Proof.
  unfold compilePass. unfold mbind at 1, M_bind at 1.
  destruct (computeCacheKeys E inputFiles opts w) as [[keys|e] w0]; [|done].
  unfold mbind at 1, M_bind at 1. rewrite useCacheFirst_spec.
  unfold mbind at 1, M_bind at 1. unfold call_compiler at 1.
  unfold mbind at 1, M_bind at 1. cbn beta iota.
  unfold mbind at 1, M_bind at 1. simpl files.
  destruct (foldM _ _ _ _) as [[s|e] w2]; [|done].
  unfold mbind at 1, M_bind at 1. unfold call_compiler at 1.
  destruct (tsc E inputFiles opts (files w0)).2 as [|d ds] eqn:Hd; [done|].
  unfold mbind at 1, M_bind at 1.
  rewrite (log_diagnostics E cwd (d :: ds)).
  by destruct (reportFailure E cwd (d :: ds)).
Qed.

(** A pass that returns: no diagnostics, every phase succeeded. *)
Lemma compilePass_Returned ec inputFiles cwd opts out0 w out w' :
  compilePass E ec inputFiles cwd opts out0 w = (Returned out, w') →
  ∃ keys s w2,
    computeCacheKeys E inputFiles opts w = (Returned keys, w)
    ∧ foldM (writeFile E inputFiles opts keys)
        (mkSink (out0 ++ seeds ec (store w) keys inputFiles) ∅)
        (tsc E inputFiles opts (files w)).1
        (set_compiler (λ l, l ++ [createIncrementalProgram inputFiles opts]) w)
      = (Returned s, w2)
    ∧ (tsc E inputFiles opts (files w)).2 = []
    ∧ out = output s
    ∧ store w' = (if ec then cacheRets s ∪ store w else store w)
    ∧ files w' = files w2 ∧ logs w' = logs w ∧ dirs w' = dirs w
    ∧ compiler w' = compiler w ++ [createIncrementalProgram inputFiles opts;
                                   emitReturned []].
Proof.
  rewrite compilePass_eq.
  destruct (computeCacheKeys E inputFiles opts w) as [[keys|e] w0] eqn:Hk; [|done].
  destruct (computeCacheKeys_spec _ _ _ _ _ _ Hk) as [-> _].
  cbv zeta.
  destruct (foldM _ _ _ _) as [[s|e] w2] eqn:Hrun; [|done].
  destruct (tsc E inputFiles opts (files w)).2 as [|d ds] eqn:Hd; [|done].
  intros H. exists keys, s, w2.
  destruct (saveCache_spec ec (cacheRets s)
              (set_compiler (λ l, l ++ [emitReturned []]) w2))
    as (w4 & Hs & Hl & Hf & Hdi & Hc & Hst).
  rewrite (bind_Returned _ _ _ _ _ Hs) in H. injection H as <- <-.
  destruct (writes_frame _ _ _ _ _ _ _ _ _ Hrun) as (Hl2 & Hs2 & Hc2 & Hd2).
  simpl in *. split_and!; try done; try congruence.
  - rewrite Hst, Hs2. done.
  - rewrite Hc, Hc2, <- app_assoc. done.
Qed.

(** [getDeclarations], branch by branch. *)
Lemma getDeclarations_eq inputFiles cwd w :
  getDeclarations E env inputFiles cwd w =
  let w0 := if enableCache env
            then set_dirs (λ d, list_to_set (ancestors (tscCacheDir E cwd)) ∪ d) w else w in
  match getTsconfig E cwd with
  | None => (Returned [], w0)
  | Some tsconfig =>
      match errors tsconfig with
      | e :: _ =>
          (Thrown (Error ("Error parsing tsconfig.json content: " +:+ e)), w0)
      | [] =>
          if bool_decide (declaration (options tsconfig) = Some true)
             && bool_decide (noEmit (options tsconfig) = Some true)
          then
            (Returned [],
             set_logs (λ l, l ++ [warn "tsconfig.json `noEmit` is true, will not emit declaration files!"]) w0)
          else
            match removeOutOfCwdPaths E cwd
                    (defaultDeclarationMap env (options tsconfig)) w0 with
            | (Returned o, w1) =>
                compilePass E (enableCache env) inputFiles cwd
                  (enableIncremental E (enableCache env) (tscCacheDir E cwd) o) [] w1
            | (Thrown e, w1) => (Thrown e, w1)
            end
      end
  end.
Proof.
  unfold getDeclarations.
  unfold mbind at 1, M_bind at 1.
  assert ((if enableCache env then ensureDirSync (tscCacheDir E cwd) else mret ()) w
          = (Returned (), if enableCache env
                          then set_dirs (λ d, list_to_set (ancestors (tscCacheDir E cwd)) ∪ d) w else w))
    as -> by (by destruct (enableCache env)).
  cbv zeta.
  destruct (getTsconfig E cwd) as [tc|]; [|done].
  destruct (errors tc) as [|e es]; [|done].
  destruct (_ && _); [done|].
  unfold mbind at 1, M_bind at 1. done.
Qed.

(** The world after line 41. *)
Lemma ensured_frame cwd w :
  let w0 := if enableCache env
            then set_dirs (λ d, list_to_set (ancestors (tscCacheDir E cwd)) ∪ d) w else w in
  logs w0 = logs w ∧ files w0 = files w ∧ store w0 = store w
  ∧ compiler w0 = compiler w.
Proof. by destruct (enableCache env). Qed.

Lemma app_cons_not_self {A} (l : list A) x rest : l ≠ l ++ x :: rest.
Proof.
  intros H. apply (f_equal length) in H. rewrite length_app in H. simpl in H. lia.
Qed.

(** Every way a pass can end, with what it leaves in the world. *)
Lemma compilePass_outcomes ec inputFiles cwd opts out0 w r w' :
  compilePass E ec inputFiles cwd opts out0 w = (r, w') →
  (compiler w' = compiler w ∧ logs w' = logs w ∧ store w' = store w
   ∧ ∃ e, r = Thrown e)
  ∨ (compiler w' = compiler w ++ [createIncrementalProgram inputFiles opts]
     ∧ logs w' = logs w ∧ store w' = store w ∧ ∃ e, r = Thrown e)
  ∨ (∃ d ds,
       compiler w' = compiler w ++ [createIncrementalProgram inputFiles opts;
                                    emitReturned (d :: ds)]
       ∧ logs w' = logs w ++ reported E cwd (d :: ds)
       ∧ store w' = store w
       ∧ r = Thrown (default (Error "Declaration generation failed.")
                       (reportFailure E cwd (d :: ds))))
  ∨ (compiler w' = compiler w ++ [createIncrementalProgram inputFiles opts;
                                  emitReturned []]
     ∧ logs w' = logs w ∧ ∃ out, r = Returned out).
Proof.
  rewrite compilePass_eq.
  destruct (computeCacheKeys E inputFiles opts w) as [[keys|e] w0] eqn:Hk.
  2:{ destruct (computeCacheKeys_spec _ _ _ _ _ _ Hk) as [-> _].
      intros [= <- <-]. left. eauto. }
  destruct (computeCacheKeys_spec _ _ _ _ _ _ Hk) as [-> _]. cbv zeta.
  destruct (foldM _ _ _ _) as [[s|e] w2] eqn:Hrun.
  2:{ destruct (writes_frame _ _ _ _ _ _ _ _ _ Hrun) as (Hl2 & Hs2 & Hc2 & Hd2).
      intros [= <- <-]. right. left. simpl in *. eauto. }
  destruct (writes_frame _ _ _ _ _ _ _ _ _ Hrun) as (Hl2 & Hs2 & Hc2 & Hd2).
  simpl in *.
  destruct (tsc E inputFiles opts (files w)).2 as [|d ds] eqn:Hd.
  - destruct (saveCache_spec ec (cacheRets s)
                (set_compiler (λ l, l ++ [emitReturned []]) w2))
      as (w4 & Hs & Hl & Hf & Hdi & Hc & Hst).
    rewrite (bind_Returned _ _ _ _ _ Hs). intros [= <- <-].
    right. right. right. simpl in *. split_and!; [|congruence|eauto].
    rewrite Hc, Hc2, <- app_assoc. done.
  - intros [= <- <-]. right. right. left. exists d, ds. simpl.
    split_and!; [|congruence|done|done].
    rewrite Hc2, <- app_assoc. done.
Qed.

(** When the compiler was called, the call of [getDeclarations] went
    through every branch before line 102 and ended as the pass did. *)
Lemma getDeclarations_compile inputFiles cwd w r w' rootNames opts rest :
  getDeclarations E env inputFiles cwd w = (r, w') →
  compiler w' = compiler w ++ createIncrementalProgram rootNames opts :: rest →
  ∃ tsconfig o w1,
    getTsconfig E cwd = Some tsconfig ∧ errors tsconfig = []
    ∧ removeOutOfCwdPaths E cwd (defaultDeclarationMap env (options tsconfig))
        (if enableCache env
         then set_dirs (λ d, list_to_set (ancestors (tscCacheDir E cwd)) ∪ d) w else w)
      = (Returned o, w1)
    ∧ opts = enableIncremental E (enableCache env) (tscCacheDir E cwd) o
    ∧ rootNames = inputFiles
    ∧ compilePass E (enableCache env) inputFiles cwd opts [] w1 = (r, w')
    ∧ files w1 = files w ∧ store w1 = store w ∧ compiler w1 = compiler w
    ∧ (∃ more, logs w1 = logs w ++ more)
    ∧ ∀ inputFiles' v, ∃ v1,
        getDeclarations E env inputFiles' cwd v
        = compilePass E (enableCache env) inputFiles' cwd opts [] v1
        ∧ files v1 = files v ∧ store v1 = store v ∧ compiler v1 = compiler v.
Proof.
  rewrite getDeclarations_eq. cbv zeta.
  destruct (ensured_frame cwd w) as (Hl0 & Hf0 & Hs0 & Hc0). cbv zeta in *.
  set (w0 := if enableCache env then _ else w) in *.
  destruct (getTsconfig E cwd) as [tc|] eqn:Htc.
  2:{ intros [= <- <-] Hc. rewrite Hc0 in Hc. by apply app_cons_not_self in Hc. }
  destruct (errors tc) as [|e es] eqn:He.
  2:{ intros [= <- <-] Hc. rewrite Hc0 in Hc. by apply app_cons_not_self in Hc. }
  destruct (_ && _) eqn:Hcond.
  { intros [= <- <-] Hc. simpl in Hc. rewrite Hc0 in Hc.
    by apply app_cons_not_self in Hc. }
  destruct (removeOutOfCwdPaths _ _ _ _) as [[o|e] w1] eqn:Hp.
  2:{ apply removeOutOfCwdPaths_frame in Hp as (_ & _ & Hc1 & _).
      intros [= <- <-] Hc. rewrite Hc1, Hc0 in Hc.
      by apply app_cons_not_self in Hc. }
  destruct (removeOutOfCwdPaths_frame _ _ _ _ _ Hp)
    as (Hf1 & Hs1 & Hc1 & _ & [more Hl1] & _).
  intros Hpass Hc. exists tc, o, w1.
  assert (rootNames = inputFiles ∧
          opts = enableIncremental E (enableCache env) (tscCacheDir E cwd) o)
    as [-> ->].
  { destruct (compilePass_outcomes _ _ _ _ _ _ _ _ Hpass)
      as [(Hc' & _)|[(Hc' & _)|[(d & ds & Hc' & _)|(Hc' & _)]]];
      rewrite Hc', Hc1, Hc0 in Hc.
    - by apply app_cons_not_self in Hc.
    - apply app_inv_head in Hc. by injection Hc as <- <-.
    - apply app_inv_head in Hc. by injection Hc as <- <-.
    - apply app_inv_head in Hc. by injection Hc as <- <-. }
  split_and!; try done; try congruence.
  - exists more. congruence.
  - intros inputFiles' v. rewrite getDeclarations_eq. cbv zeta.
    destruct (ensured_frame cwd v) as (_ & Hfv & Hsv & Hcv). cbv zeta in *.
    set (v0 := if enableCache env then _ else v) in *.
    rewrite Htc, He, Hcond.
    destruct (removeOutOfCwdPaths_frame _ _ _ _ _ Hp) as (_ & _ & _ & _ & _ & Hind).
    destruct (Hind v0) as [v1 Hv1]. rewrite Hv1.
    destruct (removeOutOfCwdPaths_frame _ _ _ _ _ Hv1) as (? & ? & ? & _).
    exists v1. split_and!; [done|congruence..].
Qed.

End structure.

(** ** Diagnostics, the no-emit conflict, and writes without a source *)

(** X3. When the compile pass returns a non-empty list of diagnostics, the
    call logs an error for each of them, in order, up to the first one that
    makes line 194 throw (a diagnostic without a file, or with a start the
    compiler cannot place in its file), as the last entries of the log; it
    then throws what line 194 threw, or else the single [Error] of line
    205. Nothing is returned, and the cache store is left as it was (line
    209 is not reached). When every diagnostic has a file and a start the
    compiler places in it, every one is logged and the [Error] of line 205 is
    what is thrown. *)
Theorem diagnostics_fail (E : Collaborators) (env : ProcessEnv)
    (inputFiles : list string) (cwd : string) (w : World)
    (r : Outcome (list Artifact)) (w' : World)
    (rootNames : list string) (opts : CompilerOptions) (ds : list Diagnostic) :
  getDeclarations E env inputFiles cwd w = (r, w') →
  compiler w' = compiler w ++ [createIncrementalProgram rootNames opts;
                               emitReturned ds] →
  ds ≠ [] →
  r = Thrown (default (Error "Declaration generation failed.")
                (reportFailure E cwd ds))
  ∧ (∃ before, logs w' = before ++ reported E cwd ds)
  ∧ store w' = store w
  ∧ (forallb (located E) ds = true →
     r = Thrown (Error "Declaration generation failed.")
     ∧ length (reported E cwd ds) = length ds).
Proof.
  intros Hrun Hc Hds.
  destruct (getDeclarations_compile _ _ _ _ _ _ _ _ _ _ Hrun Hc)
    as (tc & o & w1 & _ & _ & _ & _ & _ & Hpass & _ & Hs1 & Hc1 & [more Hl1] & _).
  destruct (compilePass_outcomes E _ _ _ _ _ _ _ _ Hpass)
    as [(Hc' & _)|[(Hc' & _)|[(d & ds' & Hc' & Hl & Hs & ->)|(Hc' & _)]]];
    rewrite Hc', Hc1 in Hc.
  - by apply app_cons_not_self in Hc.
  - apply app_inv_head in Hc. discriminate.
  - apply app_inv_head in Hc. injection Hc as _ <-.
    split_and!; [done| |congruence|].
    + exists (logs w ++ more). rewrite Hl, Hl1. done.
    + intros Hloc. split; [|by apply reported_located].
      apply (reportFailure_located E cwd) in Hloc. by rewrite Hloc.
  - apply app_inv_head in Hc. injection Hc as _ <-. done.
Qed.

Lemma diagnostics_fail_witness :
  let run := getDeclarations Demo.failing Demo.env [Demo.a_ts] Demo.cwd Demo.world in
  run.1 = Thrown (Error "Declaration generation failed.")
  ∧ (∃ before,
       logs run.2 = before ++
         [error "src/a.ts:1:6 - TS2322: Type 'string' is not assignable to type 'number'.";
          error "src/a.ts:2:11 - TS2304: Cannot find name 'x'.";
          error "src/a.ts:3:11 - TS4023: Exported variable 'a' has or is using name 'T'."])
  ∧ length (reported Demo.failing Demo.cwd Demo.three_diagnostics) = 3
  ∧ store run.2 = ∅.
Proof.
  cbv zeta.
  destruct (diagnostics_fail Demo.failing Demo.env [Demo.a_ts] Demo.cwd Demo.world
              (getDeclarations Demo.failing Demo.env [Demo.a_ts] Demo.cwd
                 Demo.world).1
              (getDeclarations Demo.failing Demo.env [Demo.a_ts] Demo.cwd
                 Demo.world).2
              [Demo.a_ts] Demo.resolved_options Demo.three_diagnostics)
    as (_ & Hlogs & Hstore & Hall).
  - apply surjective_pairing.
  - by_evaluation.
  - discriminate.
  - destruct Hall as [Hr Hlen]; [reflexivity|].
    split_and!; [exact Hr|exact Hlogs|exact Hlen|exact Hstore].
Defined.

(** C4, at a list of diagnostics the claim covers. The pass returns two
    diagnostics, the first without a file: the call throws the [TypeError]
    of line 194 at the first one. No diagnostic is logged, the second one is
    never reached, and the failure raised is not the [Error] of line 205. *)
Theorem diagnostics_stop_without_file :
  let run := getDeclarations Demo.failing_globally Demo.env [Demo.a_ts]
               Demo.cwd Demo.world in
  compiler run.2 = [createIncrementalProgram [Demo.a_ts] Demo.resolved_options;
                    emitReturned [Demo.global_diagnostic;
                                  Demo.diag 90 2304 "Cannot find name 'x'."]]
  ∧ run.1 = Thrown TypeError
  ∧ logs run.2 = [removal_notice "@ext/*"].
Proof. cbv zeta. split_and!; vm_compute; reflexivity. Qed.

(** C8. With a configuration that parses without errors, asks for
    declarations and sets [noEmit], the call logs one warning and returns an
    empty [output]; the compiler is not called, and neither the cache store
    nor the files change. *)
Theorem noEmit_short_circuit (E : Collaborators) (env : ProcessEnv)
    (inputFiles : list string) (cwd : string) (w : World)
    (tsconfig : ParsedCommandLine) :
  getTsconfig E cwd = Some tsconfig →
  errors tsconfig = [] →
  declaration (options tsconfig) = Some true →
  noEmit (options tsconfig) = Some true →
  ∃ w', getDeclarations E env inputFiles cwd w = (Returned [], w')
    ∧ logs w' = logs w ++
        [warn "tsconfig.json `noEmit` is true, will not emit declaration files!"]
    ∧ compiler w' = compiler w
    ∧ store w' = store w ∧ files w' = files w.
Proof.
  intros Htc Herr Hdecl Hno. rewrite getDeclarations_eq. cbv zeta.
  rewrite Htc, Herr, Hdecl, Hno. simpl.
  eexists. split; [reflexivity|].
  destruct (ensured_frame E env cwd w) as (Hl0 & Hf0 & Hs0 & Hc0).
  cbv zeta in *. simpl. rewrite Hl0. done.
Qed.

Lemma noEmit_short_circuit_witness :
  ∃ w', getDeclarations Demo.silent Demo.env [Demo.a_ts] Demo.cwd Demo.world
        = (Returned [], w')
    ∧ logs w' = logs Demo.world ++
        [warn "tsconfig.json `noEmit` is true, will not emit declaration files!"]
    ∧ compiler w' = compiler Demo.world
    ∧ store w' = store Demo.world ∧ files w' = files Demo.world.
Proof.
  apply (noEmit_short_circuit Demo.silent Demo.env [Demo.a_ts] Demo.cwd
           Demo.world Demo.noEmit_tsconfig); reflexivity.
Defined.

(** C3, at a write the claim covers. A write whose target is the configured
    incremental-state file and whose [sourceFiles] is an empty array throws
    at line 118, before the test of line 120: the content is not written. *)
Theorem incremental_state_write_throws (E : Collaborators)
    (inputFiles : list string) (cacheKeys : gmap string string) (s : Sink)
    (content : string) (w : World) :
  tsBuildInfoFile Demo.resolved_options = Some Demo.tsBuildInfo
  ∧ writeFile E inputFiles Demo.resolved_options cacheKeys s
      (mkWrite Demo.tsBuildInfo content (Some [])) w
    = (Thrown TypeError, w).
Proof. split; [reflexivity|]. by rewrite writeFile_eq. Qed.

(** C9, at a write the claim covers. A write that is not for the
    incremental-state file and carries an empty [sourceFiles] array, hence
    no originating source file, is not dropped: line 118 throws. *)
Theorem unattributed_write_throws (E : Collaborators)
    (inputFiles : list string) (opts : CompilerOptions)
    (cacheKeys : gmap string string) (s : Sink) (content : string) (w : World) :
  writeFile E inputFiles opts cacheKeys s
    (mkWrite "/p/dist/a.d.ts" content (Some [])) w
  = (Thrown TypeError, w).
Proof. by rewrite writeFile_eq. Qed.

(** What holds of the two kinds of writes when [sourceFiles] is absent or
    its first element is read without error. *)

(** X1. A write to the incremental-state path never changes [output] or
    [cacheRets], whatever its [sourceFiles]. Unless [sourceFiles] is an
    empty array, the content is written to that path and nothing else
    changes when the directory of the path exists; when it does not, the
    write throws the [ENOENT] of [fs.writeFileSync] and nothing changes. *)
Theorem incremental_state_isolated (E : Collaborators)
    (inputFiles : list string) (opts : CompilerOptions)
    (cacheKeys : gmap string string) (s : Sink) (wr : Write) (w : World) :
  tsBuildInfoFile opts = Some (w_fileName wr) →
  (∀ s' w', writeFile E inputFiles opts cacheKeys s wr w = (Returned s', w') →
            s' = s)
  ∧ (w_sourceFiles wr ≠ Some [] →
     writeFile E inputFiles opts cacheKeys s wr w
     = if bool_decide (dirname (w_fileName wr) ∈ dirs w)
       then (Returned s, set_files (insert (w_fileName wr) (w_content wr)) w)
       else (Thrown (ENOENT (w_fileName wr)), w)).
Proof.
  intros Hb. rewrite writeFile_eq, bool_decide_eq_true_2 by done.
  destruct (w_sourceFiles wr) as [[|sf sfs]|]; split; try done;
    case_bool_decide; by intros s' w' [= <- <-].
Qed.

Lemma incremental_state_isolated_witness :
  writeFile Scenarios.idle [Scenarios.a_ts] Scenarios.small_options ∅
    (mkSink [Scenarios.art_a "A"] ∅)
    (mkWrite "/p/c/tsc/tsc.tsbuildinfo" "{}" None) Scenarios.prepared_world
  = (if bool_decide (dirname "/p/c/tsc/tsc.tsbuildinfo"
                     ∈ dirs Scenarios.prepared_world)
     then (Returned (mkSink [Scenarios.art_a "A"] ∅),
           set_files (insert "/p/c/tsc/tsc.tsbuildinfo" "{}")
             Scenarios.prepared_world)
     else (Thrown (ENOENT "/p/c/tsc/tsc.tsbuildinfo"), Scenarios.prepared_world))
  ∧ dirname "/p/c/tsc/tsc.tsbuildinfo" = "/p/c/tsc"
  ∧ "/p/c/tsc" ∈ dirs Scenarios.prepared_world.
Proof.
  split_and!.
  - apply (incremental_state_isolated Scenarios.idle [Scenarios.a_ts]
             Scenarios.small_options ∅ (mkSink [Scenarios.art_a "A"] ∅)
             (mkWrite "/p/c/tsc/tsc.tsbuildinfo" "{}" None)
             Scenarios.prepared_world); [reflexivity | discriminate].
  - reflexivity.
  - apply (bool_decide_eq_true_1 _). by_evaluation.
Defined.

(** X2. A write that is not for the incremental-state file, and whose
    [sourceFiles] is absent or starts with a source file of empty name, is
    dropped: nothing is thrown and nothing changes. *)
Theorem unattributed_write_dropped (E : Collaborators)
    (inputFiles : list string) (opts : CompilerOptions)
    (cacheKeys : gmap string string) (s : Sink) (wr : Write) (w : World) :
  tsBuildInfoFile opts ≠ Some (w_fileName wr) →
  (w_sourceFiles wr = None
   ∨ ∃ rest, w_sourceFiles wr = Some (mkSourceFile "" :: rest)) →
  writeFile E inputFiles opts cacheKeys s wr w = (Returned s, w).
Proof.
  intros Hb Hsf. rewrite writeFile_eq, bool_decide_eq_false_2 by done.
  unfold attributed. rewrite bool_decide_eq_false_2 by done.
  destruct Hsf as [->|[rest ->]]; done.
Qed.

Lemma unattributed_write_dropped_witness :
  writeFile Demo.quiet [Demo.a_ts] Demo.resolved_options ∅
    (mkSink [Demo.art_a "A"] ∅) (mkWrite "/p/dist/x.d.ts" "X" None) Demo.world
  = (Returned (mkSink [Demo.art_a "A"] ∅), Demo.world).
Proof.
  apply (unattributed_write_dropped Demo.quiet [Demo.a_ts] Demo.resolved_options
           ∅ (mkSink [Demo.art_a "A"] ∅) (mkWrite "/p/dist/x.d.ts" "X" None)
           Demo.world); [discriminate | by left].
Defined.

(** ** Paths and keys as strings *)







(** ** Cache keys *)




(** ** Hashes of bounded length *)

Lemma bounded_strings_finite (n : nat) :
  ∃ l : list string, ∀ s, String.length s ≤ n → s ∈ l.
Proof.
  induction n as [|n [l Hl]].
  - exists [""]. intros [|c s] Hs; [apply list_elem_of_here|simpl in Hs; lia].
  - exists ("" :: (c ← (ascii_of_nat <$> seq 0 256); s ← l; [String c s])).
    intros [|c s] Hs; [apply list_elem_of_here|].
    apply list_elem_of_further, list_elem_of_bind. exists c. split.
    + apply list_elem_of_bind. exists s. split; [apply list_elem_of_here|].
      apply Hl. simpl in Hs. lia.
    + apply list_elem_of_fmap. exists (nat_of_ascii c). split.
      * by rewrite ascii_nat_embedding.
      * apply elem_of_seq. pose proof (nat_ascii_bounded c). lia.
Qed.

Lemma fmap_collision {A B} `{EqDecision B} (f : A → B) (l : list A) :
  NoDup l → ¬ NoDup (f <$> l) →
  ∃ x y, x ∈ l ∧ y ∈ l ∧ x ≠ y ∧ f x = f y.
Proof.
  induction 1 as [|x l Hx Hnd IH]; intros Hdup.
  - destruct Hdup. constructor.
  - rewrite fmap_cons in Hdup.
    destruct (decide (f x ∈ f <$> l)) as [Hin|Hnin].
    + apply list_elem_of_fmap in Hin as (y & Hxy & Hy).
      exists x, y. split_and!; [apply list_elem_of_here|
                                by apply list_elem_of_further| |done].
      by intros ->.
    + destruct IH as (a & b & Ha & Hb & Hab & Hf).
      { intros Hnd'. apply Hdup. by constructor. }
      exists a, b. split_and!; try done; by apply list_elem_of_further.
Qed.

Lemma padding_NoDup (n : nat) :
  NoDup ((λ k, String.string_of_list_ascii (replicate k "a"%char)) <$> seq 0 n).
Proof.
  apply NoDup_fmap_2_strong; [|apply NoDup_seq].
  intros i j _ _ Heq. apply (f_equal String.length) in Heq.
  assert (Hlen : ∀ k, String.length (String.string_of_list_ascii (replicate k "a"%char)) = k).
  { intros k. induction k as [|k IHk]; simpl; [done|by rewrite IHk]. }
  by rewrite !Hlen in Heq.
Qed.

Lemma substring_length_le (n m : nat) (s : string) :
  String.length (String.substring n m s) ≤ m.
Proof.
  revert n m. induction s as [|c s IH]; intros [|n] [|m]; simpl; try lia.
  - specialize (IH 0 m). lia.
  - apply (IH n 0).
  - apply (IH n (S m)).
Qed.

(** X21. A content hash of bounded length (the hash of the code is eight
    hexadecimal digits) cannot tell all contents apart: there are two
    different contents that get the same key for every file and all
    options, so that lines 103-114 compute the same keys for an input file
    before and after its content changes from one to the other. *)
Theorem bounded_hash_collides (E : Collaborators) (n : nat) :
  (∀ c, String.length (getContentHash E c) ≤ n) →
  ∃ c1 c2,
    c1 ≠ c2
    ∧ (∀ file opts, cacheKey E file c1 opts = cacheKey E file c2 opts)
    ∧ (∀ file opts w,
         (computeCacheKeys E [file] opts (set_files (insert file c1) w)).1
         = (computeCacheKeys E [file] opts (set_files (insert file c2) w)).1).
Proof.
  intros Hbound. destruct (bounded_strings_finite n) as [l Hl].
  set (pad := λ k, String.string_of_list_ascii (replicate k "a"%char)).
  destruct (fmap_collision (getContentHash E) (pad <$> seq 0 (S (length l))))
    as (c1 & c2 & _ & _ & Hne & Hhash).
  { apply padding_NoDup. }
  { intros Hnd.
    assert (Hsub : (getContentHash E <$> (pad <$> seq 0 (S (length l)))) ⊆+ l).
    { apply NoDup_submseteq; [done|]. intros h Hh.
      apply list_elem_of_fmap in Hh as (c & -> & _). apply Hl, Hbound. }
    apply submseteq_length in Hsub. rewrite !length_fmap, length_seq in Hsub.
    lia. }
  assert (Hkey : ∀ file opts, cacheKey E file c1 opts = cacheKey E file c2 opts).
  { intros file opts. by rewrite !cacheKey_eq, Hhash. }
  exists c1, c2. split_and!; [done|done|].
  intros file opts w. unfold computeCacheKeys. simpl.
  unfold mbind, M_bind, readFileSync. simpl.
  by rewrite !lookup_insert_eq, Hkey.
Qed.

Lemma bounded_hash_collides_witness :
  ∃ c1 c2,
    c1 ≠ c2
    ∧ ∀ file opts, cacheKey Scenarios.short_sighted file c1 opts
                   = cacheKey Scenarios.short_sighted file c2 opts.
Proof.
  destruct (bounded_hash_collides Scenarios.short_sighted 8)
    as (c1 & c2 & Hne & Hkey & _).
  - intros c. apply substring_length_le.
  - exists c1, c2. split; [exact Hne|exact Hkey].
Defined.

(** ** Path aliases *)

Section aliases.
Context (E : Collaborators).

Lemma get_prop_delete k item obj :
  get_prop k (delete_prop item obj) =
  if decide (k = item) then None else get_prop k obj.
Proof.
  unfold delete_prop. induction obj as [|[k' v] obj IH]; simpl.
  - by destruct (decide (k = item)).
  - rewrite filter_cons. simpl. destruct (decide (k' ≠ item)) as [Hne|Heq]; simpl.
    + destruct (decide (k' = k)) as [->|]; [|done].
      by rewrite decide_False.
    + apply dec_stable in Heq as ->. rewrite IH.
      destruct (decide (k = item)) as [->|Hne]; [done|].
      by rewrite decide_False.
Qed.

Lemma get_prop_Some_key k obj v : get_prop k obj = Some v → k ∈ obj.*1.
Proof.
  induction obj as [|[k' v'] obj IH]; simpl; [done|].
  destruct (decide (k' = k)) as [->|]; [intros _; apply list_elem_of_here|].
  intros H. apply list_elem_of_further. by apply IH.
Qed.

(** The [forEach] of lines 80-92: an alias whose first target resolves
    inside the project root is kept as it is, any other alias that has a
    first target is deleted and a notice is logged. *)
Lemma removeOutOfCwd_fold_spec cwd base items obj w obj' w' :
  foldM (removeOutOfCwd E cwd base) obj items w = (Returned obj', w') →
  ∀ k,
    (k ∉ items → get_prop k obj' = get_prop k obj)
    ∧ (k ∈ items → ∀ v, get_prop k obj = Some v →
         ∃ t ts, v = t :: ts ∧
           if inCwd E cwd base t then get_prop k obj' = Some v
           else get_prop k obj' = None ∧ removal_notice k ∈ logs w')
    ∧ (get_prop k obj = None → get_prop k obj' = None).
Proof.
  revert obj w. induction items as [|item items IH]; intros obj w; simpl.
  - intros [= <- <-] k. split_and!; [done| |done].
    intros Hk. by apply elem_of_nil in Hk.
  - intros H. apply bind_Returned_inv in H as (obj1 & w1 & Hstep & Hrest).
    destruct (removeOutOfCwd_fold_frame _ _ _ _ _ _ _ _ Hrest)
      as (_ & _ & _ & _ & [more Hlogs] & _).
    specialize (IH _ _ Hrest).
    unfold removeOutOfCwd in Hstep.
    destruct (get_prop item obj) as [[|t ts]|] eqn:Hitem; [done| |done].
    destruct (inCwd E cwd base t) eqn:Hin.
    + injection Hstep as <- <-. intros k. destruct (IH k) as (IH1 & IH2 & IH3).
      split_and!.
      * intros [Hne Hk]%not_elem_of_cons. by apply IH1.
      * intros Hk v Hv. destruct (decide (k ∈ items)) as [Hk'|Hk'].
        -- by apply IH2.
        -- apply elem_of_cons in Hk as [->|]; [|done].
           rewrite Hitem in Hv. injection Hv as <-.
           exists t, ts. split; [done|]. rewrite Hin, (IH1 Hk'). done.
      * done.
    + unfold mbind, M_bind, logger in Hstep. simpl in Hstep.
      injection Hstep as <- <-. intros k. destruct (IH k) as (IH1 & IH2 & IH3).
      split_and!.
      * intros [Hne Hk]%not_elem_of_cons. rewrite (IH1 Hk), get_prop_delete.
        by rewrite decide_False.
      * intros Hk v Hv. destruct (decide (k = item)) as [->|Hne].
        -- rewrite Hitem in Hv. injection Hv as <-.
           exists t, ts. split; [done|]. rewrite Hin. split.
           ++ apply IH3. rewrite get_prop_delete. by rewrite decide_True.
           ++ rewrite Hlogs. simpl. apply elem_of_app. left.
              apply elem_of_app. right. by apply list_elem_of_singleton.
        -- apply elem_of_cons in Hk as [|Hk]; [done|].
           apply IH2; [done|]. rewrite get_prop_delete. by rewrite decide_False.
      * intros Hnone. apply IH3. rewrite get_prop_delete.
        by destruct (decide (k = item)).
Qed.

Lemma removeOutOfCwdPaths_spec cwd o w o' w' :
  removeOutOfCwdPaths E cwd o w = (Returned o', w') →
  pathsBasePath o' = pathsBasePath o
  ∧ ∀ obj, paths o = Some obj →
      ∃ obj', paths o' = Some obj' ∧
        ∀ item,
          (get_prop item obj = None → get_prop item obj' = None)
          ∧ ∀ t ts, get_prop item obj = Some (t :: ts) →
              if inCwd E cwd (pathsBasePath o) t
              then get_prop item obj' = Some (t :: ts)
              else get_prop item obj' = None ∧ removal_notice item ∈ logs w'.
Proof.
  unfold removeOutOfCwdPaths. destruct (paths o) as [obj|] eqn:Hp.
  - intros H. apply bind_Returned_inv in H as (obj1 & w1 & Hfold & Hret).
    injection Hret as <- <-. simpl. split; [done|].
    intros ? [= <-]. exists obj1. split; [done|].
    intros item. destruct (removeOutOfCwd_fold_spec _ _ _ _ _ _ _ Hfold item)
      as (_ & H2 & H3).
    split; [done|]. intros t ts Hget.
    destruct (H2 (get_prop_Some_key _ _ _ Hget) _ Hget) as (t' & ts' & [= <- <-] & H).
    done.
  - intros [= <- <-]. split; [done|]. done.
Qed.

End aliases.

(** ** The cache entries built during a pass *)

Section cache_entries.
Context (E : Collaborators) (inputFiles : list string) (opts : CompilerOptions)
        (cacheKeys : gmap string string).

Lemma cache_push_lookup key ret (m : gmap string (list Artifact)) k :
  cache_push key ret m !! k =
  if decide (key = k) then Some (default [] (m !! k) ++ [ret]) else m !! k.
Proof.
  unfold cache_push. destruct (decide (key = k)) as [->|Hne].
  - by rewrite lookup_insert_eq.
  - by rewrite lookup_insert_ne.
Qed.

Lemma agree_off_refl p fs : agree_off p fs fs.
Proof. by intros x _. Qed.

Lemma agree_off_trans p fs1 fs2 fs3 :
  agree_off p fs1 fs2 → agree_off p fs2 fs3 → agree_off p fs1 fs3.
Proof. intros H1 H2 x Hx. by rewrite (H1 x Hx), (H2 x Hx). Qed.

Lemma sourceKey_agree fs fs0 sf :
  agree_off (tsBuildInfoFile opts) fs fs0 → tsBuildInfoFile opts ≠ Some sf →
  sourceKey E opts cacheKeys fs sf = sourceKey E opts cacheKeys fs0 sf.
Proof. intros Ha Hsf. unfold sourceKey. by rewrite (Ha sf Hsf). Qed.

(** One write: what it pushes, and under which key. *)
Lemma writeFile_cacheRets s wr w s' w' :
  writeFile E inputFiles opts cacheKeys s wr w = (Returned s', w') →
  agree_off (tsBuildInfoFile opts) (files w') (files w)
  ∧ match attributed opts wr with
    | Some ret =>
        ∃ key, sourceKey E opts cacheKeys (files w) (sourceFile ret) = Some key
               ∧ cacheRets s' = cache_push key ret (cacheRets s)
    | None => cacheRets s' = cacheRets s
    end.
Proof.
  rewrite writeFile_eq.
  assert (Hb : tsBuildInfoFile opts = Some (w_fileName wr) →
               attributed opts wr = None).
  { intros Hb. unfold attributed. by rewrite bool_decide_eq_true_2. }
  destruct (w_sourceFiles wr) as [[|sf sfs]|] eqn:Hsf; [done| |].
  - case_bool_decide as Hbi.
    + rewrite (Hb Hbi). case_bool_decide; [|done].
      intros [= <- <-]. split; [|done].
      intros x Hx. simpl. rewrite lookup_insert_ne; [done|]. congruence.
    + destruct (attributed opts wr) as [ret|].
      * destruct (sourceKey _ _ _ _ _) as [key|] eqn:Hk; [|done].
        intros [= <- <-]. split; [apply agree_off_refl|]. by exists key.
      * intros [= <- <-]. split; [apply agree_off_refl|done].
  - case_bool_decide as Hbi.
    + rewrite (Hb Hbi). case_bool_decide; [|done].
      intros [= <- <-]. split; [|done].
      intros x Hx. simpl. rewrite lookup_insert_ne; [done|]. congruence.
    + destruct (attributed opts wr) as [ret|].
      * destruct (sourceKey _ _ _ _ _) as [key|] eqn:Hk; [|done].
        intros [= <- <-]. split; [apply agree_off_refl|]. by exists key.
      * intros [= <- <-]. split; [apply agree_off_refl|done].
Qed.

(** A pass: the pushes it makes, in the order of the writes. *)
Lemma writes_cacheRets writes s w s' w' :
  foldM (writeFile E inputFiles opts cacheKeys) s writes w = (Returned s', w') →
  agree_off (tsBuildInfoFile opts) (files w') (files w)
  ∧ ∃ pushes : list (string * Artifact),
      pushes.*2 = omap (attributed opts) writes
      ∧ Forall (λ kr, ∃ fs, agree_off (tsBuildInfoFile opts) fs (files w)
                  ∧ sourceKey E opts cacheKeys fs (sourceFile kr.2) = Some kr.1)
               pushes
      ∧ ∀ k, cacheRets s' !! k = push_all k pushes (cacheRets s !! k).
Proof.
  revert s w. induction writes as [|wr writes IH]; intros s w; simpl.
  - intros [= <- <-]. split; [apply agree_off_refl|]. exists []. done.
  - intros H. apply bind_Returned_inv in H as (s1 & w1 & Hstep & Hrest).
    apply writeFile_cacheRets in Hstep as [Ha1 Hstep].
    apply IH in Hrest as (Ha2 & pushes & Hp & Hkeys & Hlook).
    split; [by eapply agree_off_trans|].
    assert (Hkeys' : Forall (λ kr, ∃ fs,
                agree_off (tsBuildInfoFile opts) fs (files w)
                ∧ sourceKey E opts cacheKeys fs (sourceFile kr.2) = Some kr.1)
              pushes).
    { eapply Forall_impl; [exact Hkeys|]. intros kr (fs & Hfs & Hk).
      exists fs. split; [by eapply agree_off_trans|done]. }
    destruct (attributed opts wr) as [ret|].
    + destruct Hstep as (key & Hkey & Hs1).
      exists ((key, ret) :: pushes). split_and!.
      * rewrite fmap_cons, Hp. done.
      * constructor; [|done]. exists (files w). split; [apply agree_off_refl|done].
      * intros k. rewrite Hlook, Hs1, cache_push_lookup. done.
    + exists pushes. split_and!; [done|done|].
      intros k. by rewrite Hlook, Hstep.
Qed.

Lemma push_all_app k p1 p2 e :
  push_all k (p1 ++ p2) e = push_all k p2 (push_all k p1 e).
Proof. unfold push_all. by rewrite foldl_app. Qed.

Lemma push_all_grows k pushes l :
  ∃ more, push_all k pushes (Some l) = Some (l ++ more).
Proof.
  revert l. induction pushes as [|[k' r] pushes IH]; intros l; simpl.
  - exists []. by rewrite app_nil_r.
  - destruct (decide (k' = k)); simpl.
    + destruct (IH (l ++ [r])) as [more ->]. exists (r :: more).
      by rewrite <- app_assoc.
    + apply IH.
Qed.

Lemma push_all_elem k ret pushes e :
  (k, ret) ∈ pushes → ∃ l, push_all k pushes e = Some l ∧ ret ∈ l.
Proof.
  revert e. induction pushes as [|[k' r] pushes IH]; intros e Hin.
  - by apply elem_of_nil in Hin.
  - apply elem_of_cons in Hin as [[= <- <-]|Hin]; simpl.
    + rewrite decide_True by done.
      destruct (push_all_grows k pushes (default [] e ++ [ret])) as [more ->].
      eexists. split; [done|]. apply elem_of_app. left.
      apply elem_of_app. right. by apply list_elem_of_singleton.
    + by apply IH.
Qed.

Lemma push_all_changed k pushes e :
  push_all k pushes e ≠ e → k ∈ pushes.*1.
Proof.
  revert e. induction pushes as [|[k' r] pushes IH]; intros e; simpl; [done|].
  destruct (decide (k' = k)) as [->|Hne].
  - intros _. apply list_elem_of_here.
  - intros H. apply list_elem_of_further. by eapply IH.
Qed.

End cache_entries.

(** ** Scoping: what goes to [output] and what goes to the cache *)

Lemma seeds_elem ec (st : gmap string (list Artifact)) keys inputFiles a :
  a ∈ seeds ec st keys inputFiles →
  ∃ f k entry, f ∈ inputFiles ∧ keys !! f = Some k
               ∧ st !! k = Some entry ∧ a ∈ entry.
Proof.
  unfold seeds. induction inputFiles as [|f l IH]; simpl.
  - intros H. by apply elem_of_nil in H.
  - intros [H|H]%elem_of_app.
    + destruct (keys !! f) as [k|] eqn:Hf; [|by apply elem_of_nil in H].
      destruct ec; [|by apply elem_of_nil in H].
      destruct (st !! k) as [entry|] eqn:Hk; [|by apply elem_of_nil in H].
      exists f, k, entry. split_and!; [apply list_elem_of_here|done..].
    + destruct (IH H) as (f' & k & entry & Hf' & ?).
      exists f', k, entry. split; [by apply list_elem_of_further|done].
Qed.

Lemma foldl_upsert_elem rets init a :
  a ∈ foldl (λ out ret, upsert ret out) init rets → a ∈ init ∨ a ∈ rets.
Proof.
  revert init. induction rets as [|r rets IH]; intros init; simpl; [by left|].
  intros [H|H]%IH.
  - apply upsert_elem_of_inv in H as [->|H]; [right; apply list_elem_of_here|by left].
  - right. by apply list_elem_of_further.
Qed.

Lemma foldl_upsert_identity rets init r :
  r ∈ rets → identity r ∈ identity <$> foldl (λ out ret, upsert ret out) init rets.
Proof.
  revert init. induction rets as [|r' rets IH]; intros init Hr; simpl.
  - by apply elem_of_nil in Hr.
  - apply elem_of_cons in Hr as [->|Hr]; [|by apply IH].
    eapply elem_of_prefix; [|apply foldl_upsert_prefix].
    apply list_elem_of_fmap_2, upsert_elem_of.
Qed.

Lemma collected_attributed inputFiles opts wr ret :
  collected inputFiles opts wr = Some ret ↔
  attributed opts wr = Some ret ∧ sourceFile ret ∈ inputFiles.
Proof.
  unfold collected. destruct (attributed opts wr) as [r|].
  - case_bool_decide as Hin.
    + split; [by intros [= <-]|by intros [[= <-] _]].
    + split; [done|]. intros [[= <-] ?]. done.
  - split; [done|by intros [? _]].
Qed.

(** The key of a source file is made from its content on disk, for an
    input file and for a file whose name no object inherits. *)
Lemma sourceKey_content (E : Collaborators) inputFiles opts w keys sf k :
  computeCacheKeys E inputFiles opts w = (Returned keys, w) →
  sf ∈ inputFiles ∨ Object_prototype E sf = None →
  sourceKey E opts keys (files w) sf = Some k →
  ∃ c, files w !! sf = Some c ∧ k = cacheKey E sf c opts.
Proof.
  intros Hk Hsf Hs. destruct (computeCacheKeys_spec _ _ _ _ _ _ Hk) as [_ H].
  specialize (H keys eq_refl sf) as [Hin Hnin].
  unfold sourceKey in Hs.
  destruct (decide (sf ∈ inputFiles)) as [Hsf'|Hsf'].
  - destruct (Hin Hsf') as (c & Hf & Hc). rewrite Hc, cacheKey_truthy in Hs.
    injection Hs as <-. by exists c.
  - destruct Hsf as [?|Hproto]; [done|].
    rewrite (Hnin Hsf'), Hproto in Hs.
    destruct (files w !! sf) as [c|]; [|done].
    injection Hs as <-. by exists c.
Qed.

(** With the map of lines 103-114, the key of lines 147-153 is the key the
    pass has for the source file. *)
Lemma sourceKey_keyFor (E : Collaborators) inputFiles opts w keys fs sf :
  computeCacheKeys E inputFiles opts w = (Returned keys, w) →
  (sf ∈ inputFiles → fs !! sf = files w !! sf) →
  sourceKey E opts keys fs sf = keyFor E inputFiles opts fs sf.
Proof.
  intros Hk Hfs. destruct (computeCacheKeys_spec _ _ _ _ _ _ Hk) as [_ H].
  specialize (H keys eq_refl sf) as [Hin Hnin].
  unfold sourceKey, keyFor. case_bool_decide as Hsf.
  - destruct (Hin Hsf) as (c & Hf & Hc).
    by rewrite Hc, cacheKey_truthy, (Hfs Hsf), Hf.
  - by rewrite (Hnin Hsf).
Qed.

Lemma seeds_disabled (st : gmap string (list Artifact)) keys inputFiles :
  seeds false st keys inputFiles = [].
Proof.
  unfold seeds. induction inputFiles as [|f l IH]; simpl; [done|].
  rewrite IH. by destruct (keys !! f).
Qed.


Section alias_claim.
Context (E : Collaborators) (env : ProcessEnv).

Lemma defaultDeclarationMap_paths o :
  paths (defaultDeclarationMap env o) = paths o
  ∧ pathsBasePath (defaultDeclarationMap env o) = pathsBasePath o.
Proof. unfold defaultDeclarationMap. by destruct (_ && _). Qed.

Lemma enableIncremental_paths ec dir o :
  paths (enableIncremental E ec dir o) = paths o.
Proof. unfold enableIncremental. by destruct (_ && _). Qed.

(** A key computed with the map of lines 103-114 is made with the options
    of the pass, whichever of the two ways it is obtained, unless it is
    what objects inherit under the name of the source file. *)
Lemma sourceKey_form inputFiles opts w keys fs sf k :
  computeCacheKeys E inputFiles opts w = (Returned keys, w) →
  sourceKey E opts keys fs sf = Some k →
  (∃ c, k = cacheKey E sf c opts) ∨ Object_prototype E sf = Some k.
Proof.
  intros Hk Hs. destruct (computeCacheKeys_spec _ _ _ _ _ _ Hk) as [_ H].
  specialize (H keys eq_refl sf) as [Hin Hnin].
  unfold sourceKey in Hs.
  destruct (decide (sf ∈ inputFiles)) as [Hsf|Hsf].
  - destruct (Hin Hsf) as (c & _ & Hc). rewrite Hc, cacheKey_truthy in Hs.
    injection Hs as <-. left. by exists c.
  - rewrite (Hnin Hsf) in Hs.
    destruct (Object_prototype E sf) as [inherited|]; [by right|].
    destruct (fs !! sf) as [c|]; [|done].
    injection Hs as <-. left. by exists c.
Qed.

(** The keys under which a call changes the store are keys made with the
    options of its pass, or what objects inherit under the name of a source
    file. *)
Lemma stored_keys_form ec inputFiles cwd opts w r w' k :
  compilePass E ec inputFiles cwd opts [] w = (r, w') →
  store w' !! k ≠ store w !! k →
  (∃ f c, k = cacheKey E f c opts) ∨ (∃ sf, Object_prototype E sf = Some k).
Proof.
  intros Hpass Hk.
  destruct (compilePass_outcomes E _ _ _ _ _ _ _ _ Hpass)
    as [(_ & _ & Hs & _)|[(_ & _ & Hs & _)|[(d & ds & _ & _ & Hs & _)
       |(_ & _ & out & ->)]]]; try (by rewrite Hs in Hk).
  apply compilePass_Returned in Hpass
    as (keys & s & w2 & Hkeys & Hrun & _ & _ & Hst & _).
  apply writes_cacheRets in Hrun as (_ & pushes & _ & Hform & Hlook).
  destruct ec; [|by rewrite Hst in Hk].
  specialize (Hlook k). simpl in Hlook. rewrite lookup_empty in Hlook.
  rewrite Hst, lookup_union, Hlook in Hk.
  assert (Hin : k ∈ pushes.*1).
  { apply (push_all_changed k pushes None). intros Hnone. apply Hk.
    rewrite Hnone. by destruct (store w !! k). }
  apply list_elem_of_fmap in Hin as ([k' ret] & -> & Hin).
  rewrite Forall_forall in Hform. destruct (Hform _ Hin) as (fs & _ & Hsk).
  simpl in *.
  destruct (sourceKey_form _ _ _ _ _ _ _ Hkeys Hsk) as [[c ->]|Hproto]; eauto.
Qed.

(** What a returned [output] is made of: artifacts of writes for input
    files, and entries the store held under keys of input files. *)
Lemma compilePass_provenance ec inputFiles cwd opts w out w' a :
  compilePass E ec inputFiles cwd opts [] w = (Returned out, w') →
  a ∈ out →
  (∃ wr, wr ∈ (tsc E inputFiles opts (files w)).1
         ∧ attributed opts wr = Some a ∧ sourceFile a ∈ inputFiles)
  ∨ (ec = true
     ∧ ∃ f c entry, f ∈ inputFiles ∧ files w !! f = Some c
                    ∧ store w !! cacheKey E f c opts = Some entry ∧ a ∈ entry).
Proof.
  intros Hpass Ha.
  apply compilePass_Returned in Hpass
    as (keys & s & w2 & Hkeys & Hwrites & _ & -> & _).
  apply writes_output in Hwrites. simpl in Hwrites. rewrite Hwrites in Ha.
  apply foldl_upsert_elem in Ha as [Ha|Ha].
  - right. destruct ec.
    2:{ rewrite seeds_disabled in Ha. by apply elem_of_nil in Ha. }
    apply seeds_elem in Ha as (f & k & entry & Hf & Hk & Hst & Ha).
    destruct (computeCacheKeys_spec _ _ _ _ _ _ Hkeys) as [_ H].
    destruct (H keys eq_refl f) as [Hin _].
    destruct (Hin Hf) as (c & Hfc & Hkc).
    split; [done|]. exists f, c, entry. split_and!; try done. congruence.
  - left. apply list_elem_of_omap in Ha as (wr & Hwr & Hcol).
    apply collected_attributed in Hcol as [Hat Hin]. by exists wr.
Qed.

End alias_claim.

(** C7, as amended. An alias is judged by its first target alone (line 83
    reads [paths[item][0]]), resolved against [pathsBasePath] and tested with
    [startsWith(winPath(cwd) + "/")]. Whenever the call reaches the
    compiler: an alias of the parsed configuration whose first target is
    outside the project root is no longer a property of [paths] in the
    options the compiler is created with, and its removal has been logged
    at debug level; an alias whose first target is inside is still there,
    with all its targets. These options are the ones serialized in the keys
    of the call: every artifact returned from the cache was stored under a
    key of an input file made with them, and every key under which the call
    changes the cache store is made with them (or is what objects inherit
    under the name of a source file). *)
Theorem aliases_filtered (E : Collaborators) (env : ProcessEnv)
    (inputFiles : list string) (cwd : string) (w : World)
    (r : Outcome (list Artifact)) (w' : World)
    (rootNames : list string) (opts : CompilerOptions) (rest : list CompilerCall)
    (tsconfig : ParsedCommandLine) (obj : list (string * list string))
    (item target : string) (targets : list string) :
  getDeclarations E env inputFiles cwd w = (r, w') →
  compiler w' = compiler w ++ createIncrementalProgram rootNames opts :: rest →
  getTsconfig E cwd = Some tsconfig →
  paths (options tsconfig) = Some obj →
  get_prop item obj = Some (target :: targets) →
  (∃ obj', paths opts = Some obj'
     ∧ if inCwd E cwd (pathsBasePath (options tsconfig)) target
       then get_prop item obj' = Some (target :: targets)
       else get_prop item obj' = None ∧ removal_notice item ∈ logs w')
  ∧ (∀ out a, r = Returned out → a ∈ out →
       (∃ wr, wr ∈ (tsc E inputFiles opts (files w)).1
              ∧ attributed opts wr = Some a ∧ sourceFile a ∈ inputFiles)
       ∨ (∃ f c entry, f ∈ inputFiles ∧ files w !! f = Some c
                       ∧ store w !! cacheKey E f c opts = Some entry
                       ∧ a ∈ entry))
  ∧ (∀ k, store w' !! k ≠ store w !! k →
       (∃ f c, k = cacheKey E f c opts)
       ∨ (∃ sf, Object_prototype E sf = Some k)).
Proof.
  intros Hrun Hc Htc Hpaths Hget.
  destruct (getDeclarations_compile _ _ _ _ _ _ _ _ _ _ Hrun Hc)
    as (tc & o & w1 & Htc' & _ & Hp & -> & -> & Hpass & Hf1 & Hs1 & _ & _ & _).
  rewrite Htc in Htc'. injection Htc' as <-.
  destruct (defaultDeclarationMap_paths env (options tsconfig)) as [Hdp Hdb].
  destruct (removeOutOfCwdPaths_spec _ _ _ _ _ _ Hp) as [_ Hspec].
  rewrite Hdp in Hspec. destruct (Hspec obj Hpaths) as (obj' & Ho' & Hitems).
  destruct (Hitems item) as [_ Hitem]. specialize (Hitem _ _ Hget).
  rewrite Hdb in Hitem.
  split_and!.
  - exists obj'. rewrite enableIncremental_paths. split; [done|].
    destruct (inCwd E cwd (pathsBasePath (options tsconfig)) target); [done|].
    destruct Hitem as [Hgone Hlog]. split; [done|].
    destruct (compilePass_outcomes E _ _ _ _ _ _ _ _ Hpass)
      as [(_ & Hl & _)|[(_ & Hl & _)|[(d & ds & _ & Hl & _)|(_ & Hl & _)]]];
      rewrite Hl; try done.
    apply elem_of_app. by left.
  - intros out a -> Ha. rewrite <- Hf1, <- Hs1.
    destruct (compilePass_provenance E _ _ _ _ _ _ _ _ Hpass Ha)
      as [?|[_ ?]]; [by left|by right].
  - intros k Hk. rewrite <- Hs1 in Hk. by eapply stored_keys_form.
Qed.

Lemma aliases_filtered_witness :
  (∃ obj', paths Scenarios.mixed_options = Some obj'
     ∧ if inCwd Scenarios.aliased Scenarios.cwd "/p" "/ext/*"
       then get_prop "@ext/*" obj' = Some ["/ext/*"]
       else get_prop "@ext/*" obj' = None
            ∧ removal_notice "@ext/*" ∈ logs Scenarios.aliased_run.2)
  ∧ inCwd Scenarios.aliased Scenarios.cwd "/p" "/ext/*" = false.
Proof.
  split; [|reflexivity].
  apply (aliases_filtered Scenarios.aliased Demo.env [] Scenarios.cwd
           Scenarios.small_world Scenarios.aliased_run.1 Scenarios.aliased_run.2
           [] Scenarios.mixed_options [emitReturned []]
           Scenarios.aliased_tsconfig
           [("@/*", ["src/*"]); ("@ext/*", ["/ext/*"]);
            ("@mixed/*", ["src/*"; "/ext/*"])]
           "@ext/*" "/ext/*" []).
  - apply surjective_pairing.
  - by_evaluation.
  - reflexivity.
  - reflexivity.
  - reflexivity.
Defined.

(** C7, as stated, fails for a target that is not the first of its alias:
    the second target of ["@mixed/*"] resolves outside the project root,
    and the alias is handed to the compiler with both targets; no removal
    is logged for it. *)
Lemma mixed_alias_kept :
  inCwd Scenarios.aliased Scenarios.cwd "/p" "/ext/*" = false
  ∧ compiler Scenarios.aliased_run.2
    = [createIncrementalProgram [] Scenarios.mixed_options; emitReturned []]
  ∧ (get_prop "@mixed/*" <$> paths Scenarios.mixed_options)
    = Some (Some ["src/*"; "/ext/*"])
  ∧ logs Scenarios.aliased_run.2 = [removal_notice "@ext/*"].
Proof. split_and!; by_evaluation. Qed.

(** ** Scoping of the output and of the cache *)

Lemma seeds_intro (st : gmap string (list Artifact)) keys inputFiles f k entry a :
  f ∈ inputFiles → keys !! f = Some k → st !! k = Some entry → a ∈ entry →
  a ∈ seeds true st keys inputFiles.
Proof.
  intros Hf Hk Hst Ha. unfold seeds.
  induction inputFiles as [|g l IH]; [by apply elem_of_nil in Hf|].
  simpl. apply elem_of_app. apply elem_of_cons in Hf as [<-|Hf].
  - left. by rewrite Hk, Hst.
  - right. by apply IH.
Qed.

Lemma collected_Forall inputFiles opts (P : Artifact → Prop) (writes : list Write) :
  Forall (λ wr, ∀ ret, collected inputFiles opts wr = Some ret → P ret) writes →
  Forall P (omap (collected inputFiles opts) writes).
Proof.
  induction 1 as [|wr writes Hwr _ IH]; [constructor|].
  simpl.
  destruct (collected inputFiles opts wr) as [ret|]; [|done].
  constructor; [by apply Hwr|done].
Qed.


(** X20. Scoping, for a source file whose name no object inherits (and
    that is not the incremental-state file). In a call that returns, take
    any write of the pass with an originating source file. With caching
    enabled, its artifact is in the entry that line 209 stores under the
    key of the source file (its path, the hash of its content on disk, the
    options of the pass), whether or not the source file is an input; and a
    later call for the same project that requests the file, with that
    content and that entry in place, starts its [output] with the entry:
    the artifact is returned, unless the later pass writes the same
    ([file], [sourceFile]) again. If the source file is not an input of
    the current call, the write does not put the artifact into its
    [output]: the artifact can only be there as part of an entry seeded
    from the store, and is not there when the store is empty. If the
    source file is an input, [output] has an entry with the artifact's
    identity. *)
Theorem scoping (E : Collaborators) (env : ProcessEnv)
    (inputFiles : list string) (cwd : string) (w : World)
    (out : list Artifact) (w' : World) (opts : CompilerOptions)
    (wr : Write) (ret : Artifact) :
  getDeclarations E env inputFiles cwd w = (Returned out, w') →
  compiler w' = compiler w ++ [createIncrementalProgram inputFiles opts;
                               emitReturned []] →
  wr ∈ (tsc E inputFiles opts (files w)).1 →
  attributed opts wr = Some ret →
  tsBuildInfoFile opts ≠ Some (sourceFile ret) →
  sourceFile ret ∈ inputFiles ∨ Object_prototype E (sourceFile ret) = None →
  (∃ c, files w !! sourceFile ret = Some c
        ∧ (FATHER_CACHE env ≠ Some "none" →
           ∃ entry,
             store w' !! cacheKey E (sourceFile ret) c opts = Some entry
             ∧ ret ∈ entry
             ∧ ∀ inputFiles2 v out2 v',
                 sourceFile ret ∈ inputFiles2 →
                 files v !! sourceFile ret = Some c →
                 store v !! cacheKey E (sourceFile ret) c opts = Some entry →
                 getDeclarations E env inputFiles2 cwd v = (Returned out2, v') →
                 identity ret ∈ identity <$> out2
                 ∧ (Forall (λ wr2, ∀ ret2,
                              collected inputFiles2 opts wr2 = Some ret2 →
                              identity ret2 ≠ identity ret)
                           (tsc E inputFiles2 opts (files v)).1 →
                    ret ∈ out2)))
  ∧ (sourceFile ret ∉ inputFiles →
     (ret ∈ out →
      ∃ f c entry, f ∈ inputFiles ∧ files w !! f = Some c
                   ∧ store w !! cacheKey E f c opts = Some entry ∧ ret ∈ entry)
     ∧ (store w = ∅ → ret ∉ out))
  ∧ (sourceFile ret ∈ inputFiles → identity ret ∈ identity <$> out).
Proof.
  intros Hrun Hc Hwr Hret Hnb Hname.
  destruct (getDeclarations_compile _ _ _ _ _ _ _ _ _ _ Hrun Hc)
    as (tc & o & w1 & _ & _ & _ & _ & _ & Hpass0 & Hf1 & Hs1 & _ & _ & Hreplay).
  pose proof Hpass0 as Hpass.
  apply compilePass_Returned in Hpass
    as (keys & s & w2 & Hkeys & Hpass & _ & -> & Hst & _).
  rewrite Hf1 in Hpass. simpl in Hpass.
  split_and!.
  - destruct (writes_cacheRets _ _ _ _ _ _ _ _ _ Hpass)
      as (_ & pushes & Hp & Hform & Hlook).
    assert (Hin : ret ∈ pushes.*2).
    { rewrite Hp. apply list_elem_of_omap. eauto. }
    apply list_elem_of_fmap in Hin as ([k ret'] & -> & Hin). simpl in *.
    rewrite Forall_forall in Hform. destruct (Hform _ Hin) as (fs & Hfs & Hk).
    simpl in *. rewrite (sourceKey_agree _ _ _ _ _ _ Hfs Hnb) in Hk.
    destruct (sourceKey_content _ _ _ _ _ _ _ Hkeys Hname Hk) as (c & Hfc & ->).
    exists c. rewrite <- Hf1. split; [done|]. intros Hec.
    unfold enableCache in *. rewrite (bool_decide_eq_true_2 _ Hec) in *.
    specialize (Hlook (cacheKey E (sourceFile ret') c opts)).
    destruct (push_all_elem _ _ _
                (cacheRets (mkSink (seeds true (store w1) keys inputFiles) ∅)
                   !! cacheKey E (sourceFile ret') c opts) Hin)
      as (l & Hl & Hrl).
    exists l. split_and!; [|done|].
    { rewrite Hst. apply lookup_union_Some_l. by rewrite Hlook. }
    intros inputFiles2 v out2 v' Hin2 Hfv Hsv Hrun2.
    destruct (Hreplay inputFiles2 v) as (v1 & Heq & Hfv1 & Hsv1 & _).
    rewrite Hrun2 in Heq. symmetry in Heq.
    apply compilePass_Returned in Heq
      as (keys2 & s2 & v2 & Hkeys2 & Hpass2 & _ & -> & _).
    apply writes_output in Hpass2. simpl in Hpass2. rewrite Hpass2.
    assert (Hseed : ret' ∈ seeds true (store v1) keys2 inputFiles2).
    { destruct (computeCacheKeys_spec _ _ _ _ _ _ Hkeys2) as [_ H2].
      destruct (H2 keys2 eq_refl (sourceFile ret')) as [H2in _].
      destruct (H2in Hin2) as (c2 & Hc2 & Hk2).
      rewrite Hfv1, Hfv in Hc2. injection Hc2 as <-.
      eapply seeds_intro; [done|done| |done]. by rewrite Hsv1. }
    split.
    + eapply elem_of_prefix; [|apply foldl_upsert_prefix].
      by apply list_elem_of_fmap_2.
    + intros Hfresh. apply foldl_upsert_keeps; [done|].
      rewrite Hfv1. by apply collected_Forall.
  - intros Hnin.
    assert (Hprov : ret ∈ output s →
              ∃ f c entry, f ∈ inputFiles ∧ files w !! f = Some c
                ∧ store w !! cacheKey E f c opts = Some entry ∧ ret ∈ entry).
    { intros Hout. rewrite <- Hf1, <- Hs1.
      destruct (compilePass_provenance E _ _ _ _ _ _ _ _ Hpass0 Hout)
        as [(wr' & _ & Hat & Hin')|[_ ?]]; [|done].
      assert (sourceFile ret ∈ inputFiles) by done. done. }
    split; [done|]. intros Hcold Hout.
    destruct (Hprov Hout) as (f & c & entry & _ & _ & Hentry & _).
    by rewrite Hcold, lookup_empty in Hentry.
  - intros Hin. apply writes_output in Hpass. rewrite Hpass.
    apply foldl_upsert_identity, list_elem_of_omap. exists wr.
    split; [done|]. by apply collected_attributed.
Qed.

Lemma scoping_witness :
  (∃ entry,
     store Scenarios.after_sharing
       !! cacheKey Scenarios.sharing Scenarios.b_ts "2" Scenarios.small_options
     = Some entry
     ∧ Scenarios.art_b "B" ∈ entry)
  ∧ (Scenarios.art_b "B" ∉ [Scenarios.art_a "A"])
  ∧ (∃ out2, Scenarios.sharing_later.1 = Returned out2
             ∧ Scenarios.art_b "B" ∈ out2).
Proof.
  destruct (scoping Scenarios.sharing Demo.env [Scenarios.a_ts] Scenarios.cwd
              Scenarios.two_files [Scenarios.art_a "A"] Scenarios.after_sharing
              Scenarios.small_options (Scenarios.write_b "B")
              (Scenarios.art_b "B"))
    as ((c & Hc & Hcached) & Habsent & _).
  - by_evaluation.
  - reflexivity.
  - apply list_elem_of_further, list_elem_of_here.
  - reflexivity.
  - discriminate.
  - right. reflexivity.
  - change (Some "2" = Some c) in Hc. injection Hc as <-.
    destruct Hcached as (entry & Hentry & Hin & Hlater); [discriminate|].
    split_and!.
    + exists entry. split; [exact Hentry|exact Hin].
    + apply Habsent; [|reflexivity].
      intros Hin'. apply list_elem_of_singleton in Hin'. discriminate Hin'.
    + exists [Scenarios.art_b "B"]. split; [by_evaluation|].
      apply (Hlater [Scenarios.b_ts] Scenarios.after_sharing
               [Scenarios.art_b "B"] Scenarios.sharing_later.2).
      * apply list_elem_of_here.
      * by_evaluation.
      * exact Hentry.
      * by_evaluation.
      * assert (Hnone : (tsc Scenarios.sharing [Scenarios.b_ts]
                           Scenarios.small_options
                           (files Scenarios.after_sharing)).1 = [])
          by by_evaluation.
        rewrite Hnone. constructor.
Defined.

(** ** File names in artifacts *)





(** ** Two successive calls *)

Lemma seeds_empty ec keys inputFiles :
  seeds ec (∅ : gmap string (list Artifact)) keys inputFiles = [].
Proof.
  unfold seeds. induction inputFiles as [|f l IH]; simpl; [done|].
  rewrite IH. destruct (keys !! f); [|done]. destruct ec; [|done].
  by rewrite lookup_empty.
Qed.


Lemma omap_cons_eq {A B} (f : A → option B) (x : A) (l : list A) :
  omap f (x :: l) = match f x with Some y => y :: omap f l | None => omap f l end.
Proof. reflexivity. Qed.


Lemma omap_collected_none inputFiles opts (writes : list Write) :
  Forall (λ wr, collected inputFiles opts wr = None) writes →
  omap (collected inputFiles opts) writes = [].
Proof.
  induction 1 as [|wr writes Hwr _ IH]; [done|]. by rewrite omap_cons_eq, Hwr.
Qed.


Lemma flat_map_ext_in {A B} (f g : A → list B) (l : list A) :
  (∀ x, x ∈ l → f x = g x) → flat_map f l = flat_map g l.
Proof.
  induction l as [|x l IH]; intros H; simpl; [done|].
  rewrite (H x) by apply list_elem_of_here. rewrite IH; [done|].
  intros y Hy. apply H. by apply list_elem_of_further.
Qed.






(** ** A call on an empty cache store *)

(** X4. With nothing in the cache store, every [output] that
    [getDeclarations] returns has pairwise distinct ([file], [sourceFile])
    identities. *)
Theorem output_distinct_cold (E : Collaborators) (env : ProcessEnv)
    (inputFiles : list string) (cwd : string) (w : World)
    (out : list Artifact) (w' : World) :
  getDeclarations E env inputFiles cwd w = (Returned out, w') →
  store w = ∅ →
  NoDup (identity <$> out).
Proof.
  rewrite getDeclarations_eq. cbv zeta.
  destruct (ensured_frame E env cwd w) as (_ & _ & Hs0 & _). cbv zeta in Hs0.
  set (w0 := if enableCache env then _ else w) in *.
  destruct (getTsconfig E cwd) as [tc|]; [|intros [= <- <-] _; apply NoDup_nil_2].
  destruct (errors tc) as [|e es]; [|done].
  destruct (_ && _); [intros [= <- <-] _; apply NoDup_nil_2|].
  destruct (removeOutOfCwdPaths _ _ _ _) as [[o|e] w1] eqn:Hp; [|done].
  destruct (removeOutOfCwdPaths_frame _ _ _ _ _ _ Hp) as (_ & Hs1 & _).
  intros Hpass Hcold.
  apply compilePass_Returned in Hpass as (keys & s & w2 & _ & Hrun & _ & -> & _).
  rewrite Hs1, Hs0, Hcold, seeds_empty in Hrun.
  apply writes_output in Hrun. rewrite Hrun.
  apply foldl_upsert_NoDup. apply NoDup_nil_2.
Qed.

Lemma output_distinct_cold_witness :
  NoDup (identity <$> [Demo.art_a "new"]).
Proof.
  apply (output_distinct_cold Demo.twice Demo.env [Demo.a_ts] Demo.cwd Demo.world
           [Demo.art_a "new"]
           (getDeclarations Demo.twice Demo.env [Demo.a_ts] Demo.cwd Demo.world).2).
  - by_evaluation.
  - reflexivity.
Defined.

(** ** The shape of the cache store *)

Lemma push_all_elem_inv k (pushes : list (string * Artifact)) e l a :
  push_all k pushes e = Some l → a ∈ l →
  a ∈ default [] e ∨ (k, a) ∈ pushes.
Proof.
  revert e. induction pushes as [|[k' r] pushes IH]; intros e; simpl.
  - intros -> Ha. by left.
  - intros Hp Ha. destruct (IH _ Hp Ha) as [Hin|Hin].
    + destruct (decide (k' = k)) as [->|]; [|by left].
      simpl in Hin. apply elem_of_app in Hin as [Hin|Hin]; [by left|].
      apply list_elem_of_singleton in Hin as ->. right. apply list_elem_of_here.
    + right. by apply list_elem_of_further.
Qed.

Lemma compilePass_store_wf (E : Collaborators) ec inputFiles cwd opts w r w' :
  compilePass E ec inputFiles cwd opts [] w = (r, w') →
  store_wf E (store w) → store_wf E (store w').
Proof.
  intros Hpass Hwf.
  destruct (compilePass_outcomes E _ _ _ _ _ _ _ _ Hpass)
    as [(_ & _ & Hs & _)|[(_ & _ & Hs & _)|[(d & ds & _ & _ & Hs & _)
       |(_ & _ & out & ->)]]]; try (by rewrite Hs).
  apply compilePass_Returned in Hpass
    as (keys & s & w2 & Hkeys & Hrun & _ & _ & Hst & _).
  destruct ec; [|by rewrite Hst].
  apply writes_cacheRets in Hrun as (_ & pushes & _ & Hform & Hlook).
  intros k entry a Hk Ha. rewrite Hst in Hk.
  apply lookup_union_Some_raw in Hk as [Hk|[_ Hk]]; [|by eapply Hwf].
  rewrite Hlook in Hk. simpl in Hk. rewrite lookup_empty in Hk.
  destruct (push_all_elem_inv _ _ _ _ _ Hk Ha) as [Hin|Hin].
  { by apply elem_of_nil in Hin. }
  rewrite Forall_forall in Hform. destruct (Hform _ Hin) as (fs & _ & Hsk).
  simpl in Hsk.
  destruct (sourceKey_form _ _ _ _ _ _ _ _ Hkeys Hsk) as [[c ->]|Hinherited].
  - left. eauto.
  - by right.
Qed.

(** X5. [getDeclarations] keeps the cache store in shape: if, before the
    call, every artifact in the store sits under a key made for its own
    source file (its path, a content hash, some options) or under what
    objects inherit under the name of its source file (the value that
    [cacheKeys[sourceFile]] finds at line 148 for a name such as
    [constructor]), the same holds after it, however the call ends. *)
Theorem store_wf_preserved (E : Collaborators) (env : ProcessEnv)
    (inputFiles : list string) (cwd : string) (w : World)
    (r : Outcome (list Artifact)) (w' : World) :
  getDeclarations E env inputFiles cwd w = (r, w') →
  store_wf E (store w) → store_wf E (store w').
Proof.
  rewrite getDeclarations_eq. cbv zeta.
  destruct (ensured_frame E env cwd w) as (_ & _ & Hs0 & _). cbv zeta in Hs0.
  set (w0 := if enableCache env then _ else w) in *.
  destruct (getTsconfig E cwd) as [tc|]; [|intros [= <- <-]; by rewrite Hs0].
  destruct (errors tc) as [|e es]; [|intros [= <- <-]; by rewrite Hs0].
  destruct (_ && _); [intros [= <- <-]; by rewrite <- Hs0|].
  destruct (removeOutOfCwdPaths _ _ _ _) as [[o|e] w1] eqn:Hp.
  - destruct (removeOutOfCwdPaths_frame _ _ _ _ _ _ Hp) as (_ & Hs1 & _).
    intros Hpass Hwf. eapply compilePass_store_wf; [exact Hpass|].
    by rewrite Hs1, Hs0.
  - destruct (removeOutOfCwdPaths_frame _ _ _ _ _ _ Hp) as (_ & Hs1 & _).
    intros [= <- <-]. by rewrite Hs1, Hs0.
Qed.

Lemma store_wf_preserved_witness :
  store_wf Demo.incremental (store Demo.first_run.2).
Proof.
  apply (store_wf_preserved Demo.incremental Demo.env [Demo.a_ts; Demo.b_ts]
           Demo.cwd Demo.world Demo.first_run.1 Demo.first_run.2).
  - apply surjective_pairing.
  - intros k entry a Hk. unfold Demo.world in Hk. simpl in Hk.
    by rewrite lookup_empty in Hk.
Defined.

(** ** What a call leaves alone *)

Lemma app_cons_not_self_r {A} (l : list A) x rest : l ++ x :: rest ≠ l.
Proof. intros H. symmetry in H. by apply app_cons_not_self in H. Qed.

Section frames.
Context (E : Collaborators) (env : ProcessEnv).

(** A write changes no file but the incremental-state file, however it
    ends. *)
Lemma writeFile_files inputFiles opts cacheKeys s wr w r w' :
  writeFile E inputFiles opts cacheKeys s wr w = (r, w') →
  agree_off (tsBuildInfoFile opts) (files w') (files w).
Proof.
  rewrite writeFile_eq.
  destruct (w_sourceFiles wr) as [[|sf sfs]|].
  - intros [= <- <-]. by intros x _.
  - case_bool_decide as Hb.
    + case_bool_decide; intros [= <- <-] x Hx; [|done].
      simpl. rewrite lookup_insert_ne; [done|congruence].
    + destruct (attributed opts wr); [destruct (sourceKey _ _ _ _ _)|];
        intros [= <- <-]; by intros x _.
  - case_bool_decide as Hb.
    + case_bool_decide; intros [= <- <-] x Hx; [|done].
      simpl. rewrite lookup_insert_ne; [done|congruence].
    + destruct (attributed opts wr); [destruct (sourceKey _ _ _ _ _)|];
        intros [= <- <-]; by intros x _.
Qed.

Lemma writes_files inputFiles opts cacheKeys writes s w r w' :
  foldM (writeFile E inputFiles opts cacheKeys) s writes w = (r, w') →
  agree_off (tsBuildInfoFile opts) (files w') (files w).
Proof.
  revert s w. induction writes as [|wr writes IH]; intros s w; simpl.
  - intros [= <- <-]. by intros x _.
  - intros H. apply bind_inv in H as [(s1 & w1 & H1 & H2)|(e & H1 & _)].
    + apply writeFile_files in H1. apply IH in H2.
      intros x Hx. by rewrite (H2 x Hx), (H1 x Hx).
    + by apply writeFile_files in H1.
Qed.

(** A pass that ends before the compiler is created changes nothing. *)
Lemma compilePass_early ec inputFiles cwd opts out0 w r w' :
  compilePass E ec inputFiles cwd opts out0 w = (r, w') →
  compiler w' = compiler w →
  w' = w ∧ ∃ e, r = Thrown e.
Proof.
  intros Hpass Hc. rewrite compilePass_eq in Hpass.
  destruct (computeCacheKeys E inputFiles opts w) as [[keys|e] w0] eqn:Hk;
    destruct (computeCacheKeys_spec _ _ _ _ _ _ Hk) as [-> _].
  2:{ injection Hpass as <- <-. eauto. }
  cbv zeta in Hpass. exfalso.
  destruct (foldM _ _ _ _) as [[s|e] w2] eqn:Hrun;
    destruct (writes_frame _ _ _ _ _ _ _ _ _ Hrun) as (_ & _ & Hc2 & _);
    simpl in Hc2.
  - destruct (tsc E inputFiles opts (files w)).2 as [|d ds].
    + destruct (saveCache_spec ec (cacheRets s)
                  (set_compiler (λ l, l ++ [emitReturned []]) w2))
        as (w4 & Hs & _ & _ & _ & Hc4 & _).
      rewrite (bind_Returned _ _ _ _ _ Hs) in Hpass. injection Hpass as <- <-.
      simpl in Hc4. rewrite Hc4, Hc2, <- app_assoc in Hc.
      by apply app_cons_not_self_r in Hc.
    + injection Hpass as _ <-. simpl in Hc. rewrite Hc2, <- app_assoc in Hc.
      by apply app_cons_not_self_r in Hc.
  - injection Hpass as _ <-. rewrite Hc2 in Hc.
    by apply app_cons_not_self_r in Hc.
Qed.

Lemma compilePass_files ec inputFiles cwd opts out0 w r w' :
  compilePass E ec inputFiles cwd opts out0 w = (r, w') →
  agree_off (tsBuildInfoFile opts) (files w') (files w) ∧ dirs w' = dirs w.
Proof.
  rewrite compilePass_eq.
  destruct (computeCacheKeys E inputFiles opts w) as [[keys|e] w0] eqn:Hk;
    destruct (computeCacheKeys_spec _ _ _ _ _ _ Hk) as [-> _].
  2:{ intros [= <- <-]. split; [by intros x _|done]. }
  cbv zeta.
  destruct (foldM _ _ _ _) as [[s|e] w2] eqn:Hrun;
    pose proof (writes_files _ _ _ _ _ _ _ _ Hrun) as Hf;
    destruct (writes_frame _ _ _ _ _ _ _ _ _ Hrun) as (_ & _ & _ & Hd);
    simpl in Hf, Hd.
  - destruct (tsc E inputFiles opts (files w)).2 as [|d ds].
    + destruct (saveCache_spec ec (cacheRets s)
                  (set_compiler (λ l, l ++ [emitReturned []]) w2))
        as (w4 & Hs & _ & Hf4 & Hd4 & _).
      rewrite (bind_Returned _ _ _ _ _ Hs). intros [= <- <-].
      simpl in *. rewrite Hf4, Hd4. done.
    + intros [= <- <-]. done.
  - intros [= <- <-]. done.
Qed.

End frames.

(** X6. A call that ends without having created the compiler has changed
    neither the cache store nor any file, and its result is an empty
    [output] or an error. *)
Theorem quiet_without_compiler (E : Collaborators) (env : ProcessEnv)
    (inputFiles : list string) (cwd : string) (w : World)
    (r : Outcome (list Artifact)) (w' : World) :
  getDeclarations E env inputFiles cwd w = (r, w') →
  compiler w' = compiler w →
  store w' = store w ∧ files w' = files w
  ∧ (r = Returned [] ∨ ∃ e, r = Thrown e).
Proof.
  rewrite getDeclarations_eq. cbv zeta.
  destruct (ensured_frame E env cwd w) as (_ & Hf0 & Hs0 & Hc0). cbv zeta in *.
  set (w0 := if enableCache env then _ else w) in *.
  destruct (getTsconfig E cwd) as [tc|]; [|intros [= <- <-] _; auto].
  destruct (errors tc) as [|e es]; [|intros [= <- <-] _; eauto 6].
  destruct (_ && _); [intros [= <- <-] _; auto|].
  destruct (removeOutOfCwdPaths _ _ _ _) as [[o|e] w1] eqn:Hp;
    destruct (removeOutOfCwdPaths_frame _ _ _ _ _ _ Hp) as (Hf1 & Hs1 & Hc1 & _).
  - intros Hpass Hc. rewrite <- Hc0, <- Hc1 in Hc.
    destruct (compilePass_early E _ _ _ _ _ _ _ _ Hpass Hc) as [-> [e ->]].
    split_and!; [congruence|congruence|eauto].
  - intros [= <- <-] _. split_and!; [congruence|congruence|eauto].
Qed.

Lemma quiet_without_compiler_witness :
  let run := getDeclarations Demo.quiet Demo.env ["/p/src/missing.ts"] Demo.cwd
               Demo.world in
  run.1 = Thrown (ENOENT "/p/src/missing.ts")
  ∧ store run.2 = store Demo.world ∧ files run.2 = files Demo.world.
Proof.
  cbv zeta. split; [vm_compute; reflexivity|].
  destruct (quiet_without_compiler Demo.quiet Demo.env ["/p/src/missing.ts"]
              Demo.cwd Demo.world
              (getDeclarations Demo.quiet Demo.env ["/p/src/missing.ts"] Demo.cwd
                 Demo.world).1
              (getDeclarations Demo.quiet Demo.env ["/p/src/missing.ts"] Demo.cwd
                 Demo.world).2) as (Hs & Hf & _).
  - apply surjective_pairing.
  - vm_compute. reflexivity.
  - split; [exact Hs|exact Hf].
Defined.

(** X7. Whatever a call does and however it ends, the only file whose
    content it can change is the incremental-state file named by the options
    the compiler was created with: no declaration is written to disk. *)
Theorem only_incremental_state_written (E : Collaborators) (env : ProcessEnv)
    (inputFiles : list string) (cwd : string) (w : World)
    (r : Outcome (list Artifact)) (w' : World)
    (rootNames : list string) (opts : CompilerOptions) (rest : list CompilerCall)
    (path : string) :
  getDeclarations E env inputFiles cwd w = (r, w') →
  compiler w' = compiler w ++ createIncrementalProgram rootNames opts :: rest →
  tsBuildInfoFile opts ≠ Some path →
  files w' !! path = files w !! path.
Proof.
  intros Hrun Hc Hp.
  destruct (getDeclarations_compile _ _ _ _ _ _ _ _ _ _ Hrun Hc)
    as (tc & o & w1 & _ & _ & _ & _ & _ & Hpass & Hf1 & _).
  apply compilePass_files in Hpass as [Hf _].
  rewrite (Hf path Hp). by rewrite Hf1.
Qed.

Lemma only_incremental_state_written_witness :
  files Demo.first_run.2 !! "/p/dist/a.d.ts" = files Demo.world !! "/p/dist/a.d.ts"
  ∧ files Demo.first_run.2 !! Demo.tsBuildInfo = Some "{}".
Proof.
  split; [|vm_compute; reflexivity].
  apply (only_incremental_state_written Demo.incremental Demo.env
           [Demo.a_ts; Demo.b_ts] Demo.cwd Demo.world Demo.first_run.1
           Demo.first_run.2 [Demo.a_ts; Demo.b_ts] Demo.resolved_options
           [emitReturned []] "/p/dist/a.d.ts").
  - apply surjective_pairing.
  - vm_compute. reflexivity.
  - discriminate.
Defined.

(** ** The options the compiler is created with *)

Lemma ancestors_self (dir : string) : dir ∈ ancestors dir.
Proof.
  unfold ancestors. destruct (String.length dir); simpl.
  - apply list_elem_of_here.
  - case_bool_decide; apply list_elem_of_here.
Qed.

Lemma removeOutOfCwdPaths_fields (E : Collaborators) cwd o w o' w' :
  removeOutOfCwdPaths E cwd o w = (Returned o', w') →
  declaration o' = declaration o ∧ noEmit o' = noEmit o
  ∧ declarationMap o' = declarationMap o ∧ pathsBasePath o' = pathsBasePath o
  ∧ incremental o' = incremental o ∧ tsBuildInfoFile o' = tsBuildInfoFile o
  ∧ passthrough o' = passthrough o.
Proof.
  unfold removeOutOfCwdPaths. destruct (paths o) as [obj|].
  - intros H. apply bind_Returned_inv in H as (obj1 & w1 & _ & Hret).
    by injection Hret as <- <-.
  - by intros [= <- <-].
Qed.

Lemma defaultDeclarationMap_fields env x :
  declaration (defaultDeclarationMap env x) = declaration x
  ∧ noEmit (defaultDeclarationMap env x) = noEmit x
  ∧ pathsBasePath (defaultDeclarationMap env x) = pathsBasePath x
  ∧ passthrough (defaultDeclarationMap env x) = passthrough x
  ∧ incremental (defaultDeclarationMap env x) = incremental x
  ∧ tsBuildInfoFile (defaultDeclarationMap env x) = tsBuildInfoFile x.
Proof. unfold defaultDeclarationMap. by destruct (_ && _). Qed.

Lemma enableIncremental_fields (E : Collaborators) ec dir x :
  declaration (enableIncremental E ec dir x) = declaration x
  ∧ noEmit (enableIncremental E ec dir x) = noEmit x
  ∧ pathsBasePath (enableIncremental E ec dir x) = pathsBasePath x
  ∧ passthrough (enableIncremental E ec dir x) = passthrough x
  ∧ declarationMap (enableIncremental E ec dir x) = declarationMap x.
Proof. unfold enableIncremental. by destruct (_ && _). Qed.

(** X8. The options given to [ts.createIncrementalProgram], field by field.
    The root names are the input files. [declaration], [noEmit],
    [pathsBasePath] and the options this module does not know are those of
    the parsed configuration, and the compiler is never created when the
    configuration asks for declarations and sets [noEmit].
    [declarationMap] is forced to [true] exactly in development mode with
    declarations requested and no explicit [false]. With caching enabled
    and [incremental] left out of the configuration, [incremental] is
    [true], the incremental-state file is [tsc.tsbuildinfo] in the cache
    directory, and that directory has been made; otherwise both options are
    as configured: an explicit [incremental] is respected. *)
Theorem compiler_options (E : Collaborators) (env : ProcessEnv)
    (inputFiles : list string) (cwd : string) (w : World)
    (r : Outcome (list Artifact)) (w' : World)
    (rootNames : list string) (opts : CompilerOptions) (rest : list CompilerCall)
    (tsconfig : ParsedCommandLine) :
  getDeclarations E env inputFiles cwd w = (r, w') →
  compiler w' = compiler w ++ createIncrementalProgram rootNames opts :: rest →
  getTsconfig E cwd = Some tsconfig →
  let given := options tsconfig in
  rootNames = inputFiles
  ∧ errors tsconfig = []
  ∧ ¬ (declaration given = Some true ∧ noEmit given = Some true)
  ∧ declaration opts = declaration given
  ∧ noEmit opts = noEmit given
  ∧ pathsBasePath opts = pathsBasePath given
  ∧ passthrough opts = passthrough given
  ∧ declarationMap opts =
      (if bool_decide (NODE_ENV env = Some "development"
                       ∧ declaration given = Some true
                       ∧ declarationMap given ≠ Some false)
       then Some true else declarationMap given)
  ∧ (if bool_decide (FATHER_CACHE env ≠ Some "none" ∧ incremental given = None)
     then incremental opts = Some true
          ∧ tsBuildInfoFile opts
            = Some (path_join E [tscCacheDir E cwd; "tsc.tsbuildinfo"])
          ∧ tscCacheDir E cwd ∈ dirs w'
     else incremental opts = incremental given
          ∧ tsBuildInfoFile opts = tsBuildInfoFile given).
Proof.
  intros Hrun Hc Htc given. subst given.
  pose proof Hrun as Hrun'. rewrite getDeclarations_eq in Hrun'. cbv zeta in Hrun'.
  destruct (getDeclarations_compile _ _ _ _ _ _ _ _ _ _ Hrun Hc)
    as (tc & o & w1 & Htc' & Herr & Hp & -> & -> & Hpass & _).
  rewrite Htc in Htc'. injection Htc' as <-.
  rewrite Htc, Herr in Hrun'.
  assert (Hconf : ¬ (declaration (options tsconfig) = Some true
                     ∧ noEmit (options tsconfig) = Some true)).
  { intros [Hd Hn]. rewrite Hd, Hn in Hrun'. simpl in Hrun'.
    injection Hrun' as _ <-. simpl in Hc.
    destruct (ensured_frame E env cwd w) as (_ & _ & _ & Hc0). cbv zeta in Hc0.
    rewrite Hc0 in Hc. by apply app_cons_not_self in Hc. }
  destruct (removeOutOfCwdPaths_fields _ _ _ _ _ _ Hp)
    as (Hd & Hn & Hm & Hb & Hi & Ht & Hpt).
  destruct (removeOutOfCwdPaths_frame _ _ _ _ _ _ Hp) as (_ & _ & _ & Hdirs & _).
  apply compilePass_files in Hpass as [_ Hdirs'].
  destruct (defaultDeclarationMap_fields env (options tsconfig))
    as (Hd' & Hn' & Hb' & Hpt' & Hi' & Ht').
  destruct (enableIncremental_fields E (enableCache env) (tscCacheDir E cwd) o)
    as (Hd2 & Hn2 & Hb2 & Hpt2 & Hm2).
  split_and!; try done; try congruence.
  - rewrite Hm2, Hm. clear. unfold defaultDeclarationMap.
    destruct (decide (NODE_ENV env = Some "development"
                      ∧ declaration (options tsconfig) = Some true
                      ∧ declarationMap (options tsconfig) ≠ Some false))
      as [(H1 & H2 & H3)|Hdev].
    + rewrite (bool_decide_eq_true_2 (_ ∧ _)) by done.
      by rewrite !bool_decide_eq_true_2.
    + rewrite (bool_decide_eq_false_2 (_ ∧ _)) by done.
      destruct (_ && _) eqn:Hand; [|done].
      exfalso. apply Hdev.
      apply andb_prop in Hand as [[H1 H2]%andb_prop H3].
      by apply bool_decide_eq_true_1 in H1, H2, H3.
  - assert (Hio : incremental o = incremental (options tsconfig)) by congruence.
    assert (Hto : tsBuildInfoFile o = tsBuildInfoFile (options tsconfig))
      by congruence.
    clear Hrun' Hrun Hp Hconf.
    unfold enableIncremental, enableCache in *.
    destruct (decide (FATHER_CACHE env ≠ Some "none"
                      ∧ incremental (options tsconfig) = None))
      as [[Hen Hinc]|Hc2].
    + rewrite (bool_decide_eq_true_2 (_ ∧ _)) by done. rewrite Hio, Hinc.
      rewrite (bool_decide_eq_true_2 _ Hen) in *. simpl. split_and!; [done|done|].
      rewrite Hdirs', Hdirs. simpl. apply elem_of_union_l.
      apply elem_of_list_to_set, ancestors_self.
    + rewrite (bool_decide_eq_false_2 (_ ∧ _)) by done.
      rewrite <- Hio, <- Hto.
      destruct (bool_decide (FATHER_CACHE env ≠ Some "none")) eqn:H1;
        destruct (bool_decide (incremental o = None)) eqn:H2; simpl; try done.
      exfalso. apply Hc2. apply bool_decide_eq_true_1 in H1, H2.
      split; [done|congruence].
Qed.

Lemma compiler_options_witness :
  incremental Demo.resolved_options = Some true
  ∧ tsBuildInfoFile Demo.resolved_options = Some Demo.tsBuildInfo
  ∧ "/p/node_modules/.cache/father/tsc" ∈ dirs Demo.first_run.2
  ∧ passthrough Demo.resolved_options = [("strict", "true")].
Proof.
  destruct (compiler_options Demo.incremental Demo.env [Demo.a_ts; Demo.b_ts]
              Demo.cwd Demo.world Demo.first_run.1 Demo.first_run.2
              [Demo.a_ts; Demo.b_ts] Demo.resolved_options [emitReturned []]
              Demo.tsconfig)
    as (_ & _ & _ & _ & _ & _ & Hpt & _ & Hinc).
  - apply surjective_pairing.
  - vm_compute. reflexivity.
  - reflexivity.
  - rewrite bool_decide_eq_true_2 in Hinc by (split; [discriminate|reflexivity]).
    destruct Hinc as (Hi & Ht & Hd). split_and!; [exact Hi|exact Ht|exact Hd|exact Hpt].
Defined.

(** ** The alias filter, exactly *)

Lemma get_prop_app_fresh k (l1 l2 : list (string * list string)) :
  k ∉ l1.*1 → get_prop k (l1 ++ l2) = get_prop k l2.
Proof.
  induction l1 as [|[k' v] l1 IH]; simpl; [done|].
  intros [Hne Hk]%not_elem_of_cons. rewrite decide_False by done. by apply IH.
Qed.

Lemma get_prop_NoDup k v (l : list (string * list string)) :
  NoDup l.*1 → (k, v) ∈ l → get_prop k l = Some v.
Proof.
  induction l as [|[k' v'] l IH]; simpl.
  - intros _ H. by apply elem_of_nil in H.
  - intros [Hk' Hnd]%NoDup_cons [[= -> ->]|Hin]%elem_of_cons.
    + by rewrite decide_True.
    + rewrite decide_False; [by apply IH|].
      intros ->. apply Hk'. apply list_elem_of_fmap. by exists (k, v).
Qed.

Lemma delete_prop_fresh k (l : list (string * list string)) :
  k ∉ l.*1 → delete_prop k l = l.
Proof.
  unfold delete_prop. induction l as [|[k' v] l IH]; simpl; [done|].
  intros [Hne Hk]%not_elem_of_cons. rewrite filter_cons_True by done.
  by rewrite IH.
Qed.

Section alias_filter.
Context (E : Collaborators).

(** The [forEach] of lines 80-92 on an object whose aliases all have a
    target: what is left of the object, and what is logged. [seen] are the
    aliases already visited and kept. *)
Lemma removeOutOfCwd_fold_run cwd base (seen todo : list (string * list string)) w :
  NoDup (seen ++ todo).*1 →
  Forall (λ p, p.2 ≠ []) todo →
  foldM (removeOutOfCwd E cwd base) (seen ++ todo) todo.*1 w =
  (Returned (seen ++ filter (λ p, kept E cwd base p) todo),
   set_logs (λ l, l ++ (removal_notice <$>
                          (filter (λ p, ¬ kept E cwd base p) todo).*1)) w).
Proof.
  revert seen w. induction todo as [|[k v] todo IH]; intros seen w Hnd Hall.
  - simpl. unfold mret, M_ret, set_logs. rewrite !app_nil_r. by destruct w.
  - apply Forall_cons in Hall as [Hv Hall]. simpl in Hv.
    rewrite fmap_app, fmap_cons in Hnd. simpl in Hnd.
    pose proof Hnd as Hnd'.
    apply NoDup_app in Hnd' as (Hnd1 & Hdis & Hnd2).
    apply NoDup_cons in Hnd2 as [Hk Hnd2].
    assert (Hseen : k ∉ seen.*1).
    { intros Hin. apply (Hdis _ Hin). apply list_elem_of_here. }
    rewrite fmap_cons. cbn [foldM fst].
    assert (Hget : get_prop k (seen ++ (k, v) :: todo) = Some v).
    { rewrite get_prop_app_fresh by done. simpl. by rewrite decide_True. }
    destruct v as [|t ts]; [done|].
    assert (Hkept : kept E cwd base (k, t :: ts) = inCwd E cwd base t) by done.
    destruct (inCwd E cwd base t) eqn:Hin.
    + rewrite (bind_Returned _ _ w (seen ++ (k, t :: ts) :: todo) w).
      2:{ unfold removeOutOfCwd. by rewrite Hget, Hin. }
      rewrite filter_cons_True by (by rewrite Hkept).
      rewrite filter_cons_False by (rewrite Hkept; by intros H; apply H).
      rewrite (cons_middle _ seen todo), app_assoc.
      rewrite IH; [by rewrite <- !app_assoc|
                   by rewrite <- app_assoc, fmap_app|done].
    + rewrite (bind_Returned _ _ w (seen ++ todo)
                 (set_logs (λ l, l ++ [removal_notice k]) w)).
      2:{ unfold removeOutOfCwd. rewrite Hget, Hin.
          unfold mbind, M_bind, logger, mret, M_ret. f_equal. f_equal.
          unfold delete_prop.
          rewrite filter_app, filter_cons_False by (by intros []).
          fold (delete_prop k seen). fold (delete_prop k todo).
          by rewrite !delete_prop_fresh. }
      rewrite filter_cons_False by (rewrite Hkept; by intros []).
      rewrite filter_cons_True by (rewrite Hkept; by intros []).
      rewrite IH; [| |done].
      2:{ rewrite fmap_app. apply NoDup_app. split_and!; [done| |done].
          intros x Hx Hx2. apply (Hdis x Hx). by apply list_elem_of_further. }
      f_equal. unfold set_logs. simpl. by rewrite <- app_assoc.
Qed.

(** An alias whose list of targets is empty stops the [forEach]. *)
Lemma removeOutOfCwd_fold_throws cwd base items obj item w :
  item ∈ items → get_prop item obj = Some [] →
  ∃ w', foldM (removeOutOfCwd E cwd base) obj items w = (Thrown TypeError, w').
Proof.
  revert obj w. induction items as [|k items IH]; intros obj w Hin Hget.
  - by apply elem_of_nil in Hin.
  - cbn [foldM]. destruct (decide (k = item)) as [->|Hne].
    + exists w. apply bind_Thrown. unfold removeOutOfCwd. by rewrite Hget.
    + apply elem_of_cons in Hin as [->|Hin]; [done|].
      destruct (removeOutOfCwd E cwd base obj k w) as [[obj1|e] w1] eqn:Hstep.
      * rewrite (bind_Returned _ _ _ _ _ Hstep). apply IH; [done|].
        unfold removeOutOfCwd in Hstep.
        destruct (get_prop k obj) as [[|t ts]|]; [done| |done].
        destruct (inCwd E cwd base t).
        -- by injection Hstep as <- _.
        -- injection Hstep as <- _. rewrite get_prop_delete.
           by rewrite decide_False by done.
      * rewrite (bind_Thrown _ _ _ _ _ Hstep). exists w1.
        unfold removeOutOfCwd in Hstep.
        destruct (get_prop k obj) as [[|t ts]|]; [by injection Hstep as <- _| |
                                                   by injection Hstep as <- _].
        by destruct (inCwd E cwd base t).
Qed.

Lemma removeOutOfCwdPaths_run cwd o obj w :
  paths o = Some obj → NoDup obj.*1 → Forall (λ p, p.2 ≠ []) obj →
  removeOutOfCwdPaths E cwd o w =
  (Returned (mkOptions (declaration o) (noEmit o) (declarationMap o)
               (Some (filter (λ p, kept E cwd (pathsBasePath o) p) obj))
               (pathsBasePath o) (incremental o) (tsBuildInfoFile o)
               (passthrough o) (propertyOrder o)),
   set_logs (λ l, l ++ (removal_notice <$>
               (filter (λ p, ¬ kept E cwd (pathsBasePath o) p) obj).*1)) w).
Proof.
  intros Hp Hnd Hall. unfold removeOutOfCwdPaths. rewrite Hp.
  pose proof (removeOutOfCwd_fold_run cwd (pathsBasePath o) [] obj w Hnd Hall) as H.
  simpl in H. by rewrite (bind_Returned _ _ _ _ _ H).
Qed.

(** The aliases that come out of lines 80-92, when they come out. *)
Lemma removeOutOfCwdPaths_exact cwd o obj w o' w' :
  removeOutOfCwdPaths E cwd o w = (Returned o', w') →
  paths o = Some obj → NoDup obj.*1 →
  paths o' = Some (filter (λ p, kept E cwd (pathsBasePath o) p) obj)
  ∧ logs w' = logs w ++ (removal_notice <$>
      (filter (λ p, ¬ kept E cwd (pathsBasePath o) p) obj).*1).
Proof.
  intros Hrun Hp Hnd.
  destruct (decide (Forall (λ p : string * list string, p.2 ≠ []) obj))
    as [Hall|Hex].
  - rewrite (removeOutOfCwdPaths_run _ _ _ _ Hp Hnd Hall) in Hrun.
    by injection Hrun as <- <-.
  - exfalso. apply not_Forall_Exists in Hex; [|apply _].
    apply Exists_exists in Hex as ([k v] & Hin & Hv). simpl in Hv.
    apply dec_stable in Hv. subst v.
    unfold removeOutOfCwdPaths in Hrun. rewrite Hp in Hrun.
    destruct (removeOutOfCwd_fold_throws cwd (pathsBasePath o) obj.*1 obj k w)
      as [w1 Hthrow].
    + apply list_elem_of_fmap. by exists (k, []).
    + by apply get_prop_NoDup.
    + by rewrite (bind_Thrown _ _ _ _ _ Hthrow) in Hrun.
Qed.

End alias_filter.

(** X9. The [paths] the compiler is created with are exactly the aliases
    of the parsed configuration whose first target, resolved against
    [pathsBasePath], lies inside the project root: in their original order,
    each with all of its targets, later targets never looked at. The log of
    the call is one removal notice for each other alias, in the order of
    the keys, followed by the entries of the diagnostics, if any. (Each
    alias is one key of the [paths] object.) *)
Theorem alias_filter_exact (E : Collaborators) (env : ProcessEnv)
    (inputFiles : list string) (cwd : string) (w : World)
    (r : Outcome (list Artifact)) (w' : World)
    (rootNames : list string) (opts : CompilerOptions) (rest : list CompilerCall)
    (tsconfig : ParsedCommandLine) :
  getDeclarations E env inputFiles cwd w = (r, w') →
  compiler w' = compiler w ++ createIncrementalProgram rootNames opts :: rest →
  getTsconfig E cwd = Some tsconfig →
  (∀ obj, paths (options tsconfig) = Some obj → NoDup obj.*1) →
  let base := pathsBasePath (options tsconfig) in
  paths opts = filter (λ p, kept E cwd base p) <$> paths (options tsconfig)
  ∧ ∃ ds, logs w' =
      logs w
      ++ (removal_notice <$>
            (filter (λ p, ¬ kept E cwd base p)
               (default [] (paths (options tsconfig)))).*1)
      ++ reported E cwd ds.
Proof.
  intros Hrun Hc Htc Hnd base. subst base.
  destruct (getDeclarations_compile _ _ _ _ _ _ _ _ _ _ Hrun Hc)
    as (tc & o & w1 & Htc' & _ & Hp & -> & -> & Hpass & _ & _ & Hc1 & _).
  rewrite Htc in Htc'. injection Htc' as <-.
  destruct (defaultDeclarationMap_paths env (options tsconfig)) as [Hdp Hdb].
  destruct (ensured_frame E env cwd w) as (Hl0 & _). cbv zeta in Hl0.
  rewrite enableIncremental_paths.
  assert (Hlogs : ∃ ds, logs w' = logs w1 ++ reported E cwd ds).
  { destruct (compilePass_outcomes E _ _ _ _ _ _ _ _ Hpass)
      as [(Hc' & _)|[(_ & Hl & _)|[(d & ds & _ & Hl & _)|(_ & Hl & _)]]].
    - rewrite Hc1 in Hc'. rewrite Hc' in Hc. by apply app_cons_not_self in Hc.
    - exists []. by rewrite Hl, app_nil_r.
    - by exists (d :: ds).
    - exists []. by rewrite Hl, app_nil_r. }
  destruct Hlogs as [ds Hlogs].
  destruct (paths (options tsconfig)) as [obj|] eqn:Hpaths.
  - destruct (removeOutOfCwdPaths_exact E _ _ _ _ _ _ Hp Hdp (Hnd obj eq_refl))
      as [Hpo Hl1].
    rewrite Hdb in Hpo, Hl1. split; [done|].
    exists ds. rewrite Hlogs, Hl1, Hl0. simpl. by rewrite <- app_assoc.
  - unfold removeOutOfCwdPaths in Hp. rewrite Hdp in Hp.
    injection Hp as <- <-. split; [by rewrite Hdp|].
    exists ds. by rewrite Hlogs, Hl0.
Qed.

Lemma alias_filter_exact_witness :
  paths Demo.resolved_options = Some [("@/*", ["src/*"])]
  ∧ ∃ ds, logs Demo.first_run.2 = [removal_notice "@ext/*"] ++ reported Demo.incremental Demo.cwd ds.
Proof.
  destruct (alias_filter_exact Demo.incremental Demo.env [Demo.a_ts; Demo.b_ts]
              Demo.cwd Demo.world Demo.first_run.1 Demo.first_run.2
              [Demo.a_ts; Demo.b_ts] Demo.resolved_options [emitReturned []]
              Demo.tsconfig) as [Hp Hl].
  - apply surjective_pairing.
  - by_evaluation.
  - reflexivity.
  - intros obj [= <-]. compute_done.
  - split; [exact Hp|exact Hl].
Defined.

(** X10. An alias of the parsed configuration with an empty list of
    targets makes the call throw a [TypeError] (line 83 hands [undefined]
    to [path.resolve]): the compiler is not created, no file is read or
    written and the cache store is unchanged, whatever the other aliases
    and the input files are. *)
Theorem alias_without_target_throws (E : Collaborators) (env : ProcessEnv)
    (inputFiles : list string) (cwd : string) (w : World)
    (tsconfig : ParsedCommandLine) (obj : list (string * list string))
    (item : string) :
  getTsconfig E cwd = Some tsconfig →
  errors tsconfig = [] →
  ¬ (declaration (options tsconfig) = Some true
     ∧ noEmit (options tsconfig) = Some true) →
  paths (options tsconfig) = Some obj →
  get_prop item obj = Some [] →
  ∃ w', getDeclarations E env inputFiles cwd w = (Thrown TypeError, w')
    ∧ compiler w' = compiler w ∧ store w' = store w ∧ files w' = files w.
Proof.
  intros Htc Herr Hconf Hpaths Hget.
  rewrite getDeclarations_eq. cbv zeta. rewrite Htc, Herr.
  destruct (ensured_frame E env cwd w) as (_ & Hf0 & Hs0 & Hc0). cbv zeta in *.
  set (w0 := if enableCache env then _ else w) in *.
  assert (Hcond : bool_decide (declaration (options tsconfig) = Some true)
                  && bool_decide (noEmit (options tsconfig) = Some true) = false).
  { apply not_true_is_false. intros [H1 H2]%andb_prop.
    apply Hconf. by apply bool_decide_eq_true_1 in H1, H2. }
  rewrite Hcond.
  destruct (defaultDeclarationMap_paths env (options tsconfig)) as [Hdp Hdb].
  destruct (removeOutOfCwd_fold_throws E cwd
              (pathsBasePath (defaultDeclarationMap env (options tsconfig)))
              obj.*1 obj item w0 (get_prop_Some_key _ _ _ Hget) Hget)
    as [w1 Hthrow].
  assert (Hp : removeOutOfCwdPaths E cwd
                 (defaultDeclarationMap env (options tsconfig)) w0
               = (Thrown TypeError, w1)).
  { unfold removeOutOfCwdPaths. rewrite Hdp, Hpaths.
    by rewrite (bind_Thrown _ _ _ _ _ Hthrow). }
  rewrite Hp. exists w1. split; [done|].
  destruct (removeOutOfCwdPaths_frame _ _ _ _ _ _ Hp) as (Hf1 & Hs1 & Hc1 & _).
  split_and!; congruence.
Qed.

Lemma alias_without_target_throws_witness :
  ∃ w', getDeclarations Scenarios.untargeted Demo.env [Demo.a_ts] Demo.cwd
          Demo.world = (Thrown TypeError, w')
    ∧ compiler w' = compiler Demo.world ∧ store w' = store Demo.world
    ∧ files w' = files Demo.world.
Proof.
  apply (alias_without_target_throws Scenarios.untargeted Demo.env [Demo.a_ts]
           Demo.cwd Demo.world Scenarios.untargeted_tsconfig
           [("@/*", ["src/*"]); ("@none/*", []); ("@ext/*", ["/ext/*"])]
           "@none/*").
  - reflexivity.
  - reflexivity.
  - intros [_ H]. discriminate H.
  - reflexivity.
  - reflexivity.
Defined.

(** ** The input files *)

Section inputs.
Context (E : Collaborators) (env : ProcessEnv).

(** Lines 80-92 return when every alias has a target. *)
Lemma removeOutOfCwdPaths_returns cwd o w :
  (∀ obj, paths o = Some obj → NoDup obj.*1 ∧ Forall (λ p, p.2 ≠ []) obj) →
  ∃ o' w', removeOutOfCwdPaths E cwd o w = (Returned o', w').
Proof.
  intros H. destruct (paths o) as [obj|] eqn:Hp.
  - destruct (H obj eq_refl) as [Hnd Hall].
    rewrite (removeOutOfCwdPaths_run E cwd o obj w Hp Hnd Hall). eauto.
  - unfold removeOutOfCwdPaths. rewrite Hp. eauto.
Qed.

(** Lines 103-114 stop at the first input file that cannot be read. *)
Lemma computeCacheKeys_acc_missing opts (acc : gmap string string) pre f post w :
  Forall (λ g, is_Some (files w !! g)) pre →
  files w !! f = None →
  foldM (λ ret file,
           c ← readFileSync file;
           mret (<[file := cacheKey E file c opts]> ret)) acc (pre ++ f :: post) w
  = (Thrown (ENOENT f), w).
Proof.
  intros Hpre Hf. revert acc.
  induction Hpre as [|g pre [c Hg] _ IH]; intros acc; simpl.
  - unfold mbind, M_bind, readFileSync. by rewrite Hf.
  - unfold mbind at 1, M_bind at 1. unfold mbind at 1, M_bind at 1.
    unfold readFileSync at 1. rewrite Hg. unfold mret at 1, M_ret at 1.
    apply IH.
Qed.

(** The entries seeded for the input files, by the content on disk. *)
Lemma seeds_by_content ec (st : gmap string (list Artifact)) inputFiles opts w keys :
  computeCacheKeys E inputFiles opts w = (Returned keys, w) →
  seeds ec st keys inputFiles =
  flat_map (λ f, match files w !! f with
                 | Some c =>
                     if ec then default [] (st !! cacheKey E f c opts) else []
                 | None => []
                 end) inputFiles.
Proof.
  intros Hk. destruct (computeCacheKeys_spec _ _ _ _ _ _ Hk) as [_ H].
  specialize (H keys eq_refl). unfold seeds. apply flat_map_ext_in.
  intros f Hf. destruct (H f) as [Hin _].
  destruct (Hin Hf) as (c & Hc & Hkf). by rewrite Hc, Hkf.
Qed.

Lemma collected_no_input opts wr : collected [] opts wr = None.
Proof.
  unfold collected. destruct (attributed opts wr); [|done].
  rewrite bool_decide_eq_false_2; [done|]. apply not_elem_of_nil.
Qed.

End inputs.

(** X11. With a configuration that lets the call go on (no parse error, no
    [noEmit] with [declaration], every alias with a target), an input file
    that is not on disk makes the call throw the [ENOENT] of the first such
    file, in the order of the input files: the compiler is not created, and
    neither the files nor the cache store change. *)
Theorem missing_input_throws (E : Collaborators) (env : ProcessEnv)
    (cwd : string) (w : World) (tsconfig : ParsedCommandLine)
    (pre : list string) (f : string) (post : list string) :
  getTsconfig E cwd = Some tsconfig →
  errors tsconfig = [] →
  ¬ (declaration (options tsconfig) = Some true
     ∧ noEmit (options tsconfig) = Some true) →
  (∀ obj, paths (options tsconfig) = Some obj →
          NoDup obj.*1 ∧ Forall (λ p, p.2 ≠ []) obj) →
  Forall (λ g, is_Some (files w !! g)) pre →
  files w !! f = None →
  ∃ w', getDeclarations E env (pre ++ f :: post) cwd w = (Thrown (ENOENT f), w')
    ∧ compiler w' = compiler w ∧ store w' = store w ∧ files w' = files w.
Proof.
  intros Htc Herr Hconf Hal Hpre Hf.
  rewrite getDeclarations_eq. cbv zeta. rewrite Htc, Herr.
  destruct (ensured_frame E env cwd w) as (_ & Hf0 & Hs0 & Hc0). cbv zeta in *.
  set (w0 := if enableCache env then _ else w) in *.
  assert (Hcond : bool_decide (declaration (options tsconfig) = Some true)
                  && bool_decide (noEmit (options tsconfig) = Some true) = false).
  { apply not_true_is_false. intros [H1 H2]%andb_prop.
    apply Hconf. by apply bool_decide_eq_true_1 in H1, H2. }
  rewrite Hcond.
  destruct (defaultDeclarationMap_paths env (options tsconfig)) as [Hdp Hdb].
  destruct (removeOutOfCwdPaths_returns E cwd
              (defaultDeclarationMap env (options tsconfig)) w0)
    as (o & w1 & Hp).
  { by rewrite Hdp. }
  rewrite Hp.
  destruct (removeOutOfCwdPaths_frame _ _ _ _ _ _ Hp) as (Hf1 & Hs1 & Hc1 & _).
  exists w1. split; [|split_and!; congruence].
  rewrite compilePass_eq. unfold computeCacheKeys.
  rewrite computeCacheKeys_acc_missing; [done| |congruence].
  eapply Forall_impl; [exact Hpre|]. intros g Hg. simpl. congruence.
Qed.

Lemma missing_input_throws_witness :
  ∃ w', getDeclarations Demo.quiet Demo.env
          ([Demo.a_ts] ++ "/p/src/missing.ts" :: [Demo.b_ts; "/p/src/gone.ts"])
          Demo.cwd Demo.world = (Thrown (ENOENT "/p/src/missing.ts"), w')
    ∧ compiler w' = compiler Demo.world ∧ store w' = store Demo.world
    ∧ files w' = files Demo.world.
Proof.
  apply (missing_input_throws Demo.quiet Demo.env Demo.cwd Demo.world
           Demo.tsconfig).
  - reflexivity.
  - reflexivity.
  - intros [_ H]. discriminate H.
  - intros obj [= <-]. split; compute_done.
  - constructor; [|constructor]. by eexists.
  - reflexivity.
Defined.

(** X12. Where a returned artifact comes from. Every element of the
    returned [output] is either the artifact of a write of this pass whose
    source file is an input file, or, with caching enabled, an element of
    the entry the cache store held, when the call began, under the key of
    an input file (its path, the hash of its content on disk, the options
    of the pass). *)
Theorem output_provenance (E : Collaborators) (env : ProcessEnv)
    (inputFiles : list string) (cwd : string) (w : World)
    (out : list Artifact) (w' : World)
    (rootNames : list string) (opts : CompilerOptions) (rest : list CompilerCall)
    (a : Artifact) :
  getDeclarations E env inputFiles cwd w = (Returned out, w') →
  compiler w' = compiler w ++ createIncrementalProgram rootNames opts :: rest →
  a ∈ out →
  (∃ wr, wr ∈ (tsc E inputFiles opts (files w)).1
         ∧ attributed opts wr = Some a ∧ sourceFile a ∈ inputFiles)
  ∨ (FATHER_CACHE env ≠ Some "none"
     ∧ ∃ f c entry, f ∈ inputFiles ∧ files w !! f = Some c
                    ∧ store w !! cacheKey E f c opts = Some entry ∧ a ∈ entry).
Proof.
  intros Hrun Hc Ha.
  destruct (getDeclarations_compile _ _ _ _ _ _ _ _ _ _ Hrun Hc)
    as (tc & o & w1 & _ & _ & _ & _ & -> & Hpass & Hf1 & Hs1 & _).
  apply compilePass_Returned in Hpass
    as (keys & s & w2 & Hkeys & Hwrites & _ & -> & _).
  apply writes_output in Hwrites. simpl in Hwrites. rewrite Hwrites in Ha.
  apply foldl_upsert_elem in Ha as [Ha|Ha].
  - right. unfold enableCache in Ha. case_bool_decide as Hec.
    2:{ rewrite seeds_disabled in Ha. by apply elem_of_nil in Ha. }
    split; [done|].
    apply seeds_elem in Ha as (f & k & entry & Hf & Hk & Hst & Ha).
    destruct (computeCacheKeys_spec _ _ _ _ _ _ Hkeys) as [_ H].
    destruct (H keys eq_refl f) as [Hin _].
    destruct (Hin Hf) as (c & Hfc & Hkc).
    exists f, c, entry. rewrite <- Hf1, <- Hs1. split_and!; try done. congruence.
  - left. apply list_elem_of_omap in Ha as (wr & Hwr & Hcol).
    apply collected_attributed in Hcol as [Hat Hin].
    exists wr. rewrite <- Hf1. done.
Qed.

Lemma output_provenance_witness :
  (∃ wr, wr ∈ [Scenarios.write_a "A"]
         ∧ attributed Scenarios.small_options wr = Some (Scenarios.art_a "A")
         ∧ sourceFile (Scenarios.art_a "A") ∈ [Scenarios.a_ts])
  ∨ (FATHER_CACHE Demo.env ≠ Some "none"
     ∧ ∃ f c entry, f ∈ [Scenarios.a_ts]
         ∧ files Scenarios.small_world !! f = Some c
         ∧ store Scenarios.small_world
             !! cacheKey Scenarios.emitting f c Scenarios.small_options
           = Some entry
         ∧ Scenarios.art_a "A" ∈ entry).
Proof.
  apply (output_provenance Scenarios.emitting Demo.env [Scenarios.a_ts]
           Scenarios.cwd Scenarios.small_world [Scenarios.art_a "A"]
           Scenarios.cold_run.2 [Scenarios.a_ts] Scenarios.small_options
           [emitReturned []] (Scenarios.art_a "A")).
  - by_evaluation.
  - by_evaluation.
  - apply list_elem_of_here.
Defined.

(** X13. With no input files, a call that returns, returns an empty
    [output]: whatever the compiler writes and whatever the cache store
    holds. *)
Theorem no_input_no_output (E : Collaborators) (env : ProcessEnv)
    (cwd : string) (w : World) (out : list Artifact) (w' : World) :
  getDeclarations E env [] cwd w = (Returned out, w') → out = [].
Proof.
  rewrite getDeclarations_eq. cbv zeta.
  destruct (getTsconfig E cwd) as [tc|]; [|by intros [= <- _]].
  destruct (errors tc) as [|e es]; [|done].
  destruct (_ && _); [by intros [= <- _]|].
  destruct (removeOutOfCwdPaths _ _ _ _) as [[o|e] w1]; [|done].
  intros Hpass.
  apply compilePass_Returned in Hpass as (keys & s & w2 & _ & Hwrites & _ & -> & _).
  apply writes_output in Hwrites. rewrite Hwrites. simpl.
  rewrite (omap_collected_none [] _ _); [done|].
  apply Forall_forall. intros wr _. apply collected_no_input.
Qed.

Lemma no_input_no_output_witness :
  Demo.value_of
    (getDeclarations Scenarios.emitting Demo.env [] Scenarios.cwd
       Scenarios.warm_world) = [].
Proof.
  apply (no_input_no_output Scenarios.emitting Demo.env Scenarios.cwd
           Scenarios.warm_world _
           (getDeclarations Scenarios.emitting Demo.env [] Scenarios.cwd
              Scenarios.warm_world).2).
  by_evaluation.
Defined.

(** X14. A pass without a write for an input file is answered from the
    cache store alone: the returned [output] is, for the input files in
    order, the entry stored under the key of the file and of its content on
    disk, nothing for a file without an entry; nothing at all when caching
    is disabled. *)
Theorem answered_from_cache (E : Collaborators) (env : ProcessEnv)
    (inputFiles : list string) (cwd : string) (w : World)
    (out : list Artifact) (w' : World)
    (rootNames : list string) (opts : CompilerOptions) (rest : list CompilerCall) :
  getDeclarations E env inputFiles cwd w = (Returned out, w') →
  compiler w' = compiler w ++ createIncrementalProgram rootNames opts :: rest →
  Forall (λ wr, collected inputFiles opts wr = None)
         (tsc E inputFiles opts (files w)).1 →
  out = flat_map (λ f, match files w !! f with
                       | Some c =>
                           if bool_decide (FATHER_CACHE env ≠ Some "none")
                           then default [] (store w !! cacheKey E f c opts)
                           else []
                       | None => []
                       end) inputFiles.
Proof.
  intros Hrun Hc Hnone.
  destruct (getDeclarations_compile _ _ _ _ _ _ _ _ _ _ Hrun Hc)
    as (tc & o & w1 & _ & _ & _ & _ & -> & Hpass & Hf1 & Hs1 & _).
  apply compilePass_Returned in Hpass
    as (keys & s & w2 & Hkeys & Hwrites & _ & -> & _).
  apply writes_output in Hwrites. rewrite Hwrites. simpl.
  rewrite Hf1, omap_collected_none by done. simpl.
  rewrite (seeds_by_content E _ _ _ _ _ _ Hkeys). rewrite Hf1, Hs1. done.
Qed.

Lemma answered_from_cache_witness :
  Demo.value_of Scenarios.idle_run = [Scenarios.art_a "cached"].
Proof.
  rewrite (answered_from_cache Scenarios.idle Demo.env [Scenarios.a_ts]
             Scenarios.cwd Scenarios.warm_world
             (Demo.value_of Scenarios.idle_run) Scenarios.idle_run.2
             [Scenarios.a_ts] Scenarios.small_options [emitReturned []]).
  - by_evaluation.
  - by_evaluation.
  - by_evaluation.
  - constructor.
Defined.

(** ** What a call leaves in the cache store *)

(** The entry of a key after the pushes of a pass: untouched when no push
    is for the key, else what it held followed by the pushed artifacts. *)
Lemma push_all_grouped k (P : Artifact → Prop) `{!∀ r, Decision (P r)}
    (pushes : list (string * Artifact)) e :
  Forall (λ kr, kr.1 = k ↔ P kr.2) pushes →
  push_all k pushes e =
  match filter P pushes.*2 with
  | [] => e
  | mine => Some (default [] e ++ mine)
  end.
Proof.
  revert e. induction pushes as [|[k' r] pushes IH]; intros e Hall; [done|].
  inversion Hall as [|? ? Hkr Hrest]; subst. simpl in Hkr.
  change (push_all k ((k', r) :: pushes) e)
    with (push_all k pushes
            (if decide (k' = k) then Some (default [] e ++ [r]) else e)).
  rewrite fmap_cons. cbn [snd].
  destruct (decide (k' = k)) as [Heq|Hne].
  - rewrite filter_cons_True by (by apply Hkr). rewrite (IH _ Hrest). simpl.
    destruct (filter P pushes.*2); [done|]. by rewrite <- app_assoc.
  - rewrite filter_cons_False by (intros HP; by apply Hne, Hkr).
    by apply IH.
Qed.

(** The entry of a key after a pass that returns with caching enabled. *)
Lemma compilePass_store (E : Collaborators) inputFiles cwd opts w out w' k :
  compilePass E true inputFiles cwd opts [] w = (Returned out, w') →
  Forall (λ ret, tsBuildInfoFile opts ≠ Some (sourceFile ret))
         (omap (attributed opts) (tsc E inputFiles opts (files w)).1) →
  store w' !! k =
  match filter (λ ret, keyFor E inputFiles opts (files w) (sourceFile ret)
                       = Some k)
               (omap (attributed opts) (tsc E inputFiles opts (files w)).1) with
  | [] => store w !! k
  | mine => Some mine
  end.
Proof.
  intros Hpass Hnb.
  apply compilePass_Returned in Hpass
    as (keys & s & w2 & Hkeys & Hwrites & _ & _ & Hst & _).
  apply writes_cacheRets in Hwrites as (_ & pushes & Hp2 & Hform & Hlook).
  rewrite <- Hp2 in Hnb |- *.
  rewrite Hst, lookup_union, Hlook. simpl. rewrite lookup_empty.
  rewrite (push_all_grouped k
             (λ ret, keyFor E inputFiles opts (files w) (sourceFile ret)
                     = Some k)).
  - simpl. destruct (filter _ _); [|by destruct (store w !! k)].
    by destruct (store w !! k).
  - rewrite Forall_fmap in Hnb. rewrite Forall_forall in Hform, Hnb.
    apply Forall_forall. intros [k' ret] Hin. simpl.
    destruct (Hform _ Hin) as (fs & Hag & Hsk). simpl in Hag, Hsk.
    specialize (Hnb _ Hin). simpl in Hnb.
    rewrite (sourceKey_agree E opts keys fs (files w) _ Hag Hnb) in Hsk.
    rewrite (sourceKey_keyFor E inputFiles opts _ keys _ _ Hkeys) in Hsk
      by done.
    simpl in Hsk. rewrite Hsk. split; [by intros ->|by intros [= <-]].
Qed.

Lemma filter_ext_Forall {A} (P Q : A → Prop) `{!∀ x, Decision (P x)}
    `{!∀ x, Decision (Q x)} (l : list A) :
  Forall (λ x, P x ↔ Q x) l → filter P l = filter Q l.
Proof.
  induction 1 as [|x l Hx _ IH]; [done|]. rewrite !filter_cons, IH.
  destruct (decide (P x)) as [HP|HP].
  - by rewrite decide_True by (by apply Hx).
  - by rewrite decide_False by (intros HQ; by apply HP, Hx).
Qed.

(** X15. What line 209 leaves in the cache store after a call that
    returns with caching enabled. The key of a written source file is
    [keyFor]: for an input file, and for any file whose name no object
    inherits, its path, the hash of its content on disk and the options of
    the pass; for another file, what [cacheKeys[sourceFile]] finds at line
    148 (for a file named [constructor], the text of a function). Under a
    key the store holds exactly the artifacts this pass wrote for the
    source files with that key, in the order of the writes: an entry that
    was there before is replaced, not extended. Every key for which the
    pass wrote nothing keeps its entry. (The incremental-state file is
    assumed not to be a source file.) *)
Theorem cache_entry_replaced (E : Collaborators) (env : ProcessEnv)
    (inputFiles : list string) (cwd : string) (w : World)
    (out : list Artifact) (w' : World)
    (rootNames : list string) (opts : CompilerOptions) (rest : list CompilerCall)
    (k : string) :
  getDeclarations E env inputFiles cwd w = (Returned out, w') →
  compiler w' = compiler w ++ createIncrementalProgram rootNames opts :: rest →
  FATHER_CACHE env ≠ Some "none" →
  let written := omap (attributed opts) (tsc E inputFiles opts (files w)).1 in
  Forall (λ ret, tsBuildInfoFile opts ≠ Some (sourceFile ret)) written →
  store w' !! k =
  match filter (λ ret, keyFor E inputFiles opts (files w) (sourceFile ret)
                       = Some k) written with
  | [] => store w !! k
  | mine => Some mine
  end.
Proof.
  intros Hrun Hc Hec written Hnb. subst written.
  destruct (getDeclarations_compile _ _ _ _ _ _ _ _ _ _ Hrun Hc)
    as (tc & o & w1 & _ & _ & _ & _ & -> & Hpass & Hf1 & Hs1 & _).
  unfold enableCache in Hpass. rewrite bool_decide_eq_true_2 in Hpass by done.
  rewrite <- Hf1, <- Hs1. rewrite <- Hf1 in Hnb.
  by apply (compilePass_store E inputFiles cwd _ w1 out w' k).
Qed.

Lemma cache_entry_replaced_witness :
  store Scenarios.warm_world !! Scenarios.a_key = Some [Scenarios.art_a "cached"]
  ∧ store Scenarios.warm_run.2 !! Scenarios.a_key = Some [Scenarios.art_a "A"].
Proof.
  split; [by_evaluation|].
  rewrite (cache_entry_replaced Scenarios.emitting Demo.env [Scenarios.a_ts]
             Scenarios.cwd Scenarios.warm_world
             (Demo.value_of Scenarios.warm_run) Scenarios.warm_run.2
             [Scenarios.a_ts] Scenarios.small_options [emitReturned []]
             Scenarios.a_key).
  - by_evaluation.
  - by_evaluation.
  - by_evaluation.
  - discriminate.
  - repeat constructor. discriminate.
Defined.

(** X16. Saving is idempotent. Two successive calls that return, caching
    enabled, where the second pass writes the same artifacts as the first
    (a compiler that emits again what it emitted): the second call leaves
    the cache store exactly as the first left it. (The incremental-state
    file is assumed not to be a source file.) *)
Theorem save_idempotent (E : Collaborators) (env : ProcessEnv)
    (inputFiles : list string) (cwd : string) (w0 w1 w2 : World)
    (out1 out2 : list Artifact)
    (rootNames : list string) (opts : CompilerOptions) (rest : list CompilerCall) :
  getDeclarations E env inputFiles cwd w0 = (Returned out1, w1) →
  getDeclarations E env inputFiles cwd w1 = (Returned out2, w2) →
  compiler w1 = compiler w0 ++ createIncrementalProgram rootNames opts :: rest →
  FATHER_CACHE env ≠ Some "none" →
  let written := omap (attributed opts) (tsc E inputFiles opts (files w0)).1 in
  omap (attributed opts) (tsc E inputFiles opts (files w1)).1 = written →
  Forall (λ ret, tsBuildInfoFile opts ≠ Some (sourceFile ret)) written →
  store w2 = store w1.
Proof.
  intros Hrun1 Hrun2 Hc Hec written Hsame Hnb. subst written.
  destruct (getDeclarations_compile _ _ _ _ _ _ _ _ _ _ Hrun1 Hc)
    as (tc & o & v0 & _ & _ & _ & _ & -> & Hpass1 & Hf0 & Hs0 & _ & _ & Hreplay).
  destruct (Hreplay inputFiles w1) as (v1 & Hrun2' & Hf1 & Hs1 & _).
  rewrite Hrun2 in Hrun2'. symmetry in Hrun2'. rename Hrun2' into Hpass2.
  unfold enableCache in Hpass1, Hpass2.
  rewrite bool_decide_eq_true_2 in Hpass1, Hpass2 by done.
  pose proof (compilePass_files _ _ _ _ _ _ _ _ _ Hpass1) as [Hag _].
  rewrite <- Hf0 in Hnb, Hsame. rewrite <- Hf1 in Hsame.
  apply map_eq. intros k.
  rewrite (compilePass_store E _ _ _ _ _ _ k Hpass2) by (by rewrite Hsame).
  rewrite Hsame, Hs1.
  rewrite (compilePass_store E _ _ _ _ _ _ k Hpass1) by done.
  rewrite (filter_ext_Forall
             (λ ret, keyFor E inputFiles opts (files v1) (sourceFile ret)
                     = Some k)
             (λ ret, keyFor E inputFiles opts (files v0) (sourceFile ret)
                     = Some k)).
  - by destruct (filter _ _).
  - eapply Forall_impl; [exact Hnb|]. intros ret Hret. simpl.
    unfold keyFor. by rewrite Hf1, (Hag _ Hret).
Qed.

Lemma save_idempotent_witness :
  store (getDeclarations Scenarios.emitting Demo.env [Scenarios.a_ts]
           Scenarios.cwd Scenarios.cold_run.2).2
  = store Scenarios.cold_run.2.
Proof.
  apply (save_idempotent Scenarios.emitting Demo.env [Scenarios.a_ts]
           Scenarios.cwd Scenarios.small_world Scenarios.cold_run.2 _
           [Scenarios.art_a "A"] [Scenarios.art_a "A"]
           [Scenarios.a_ts] Scenarios.small_options [emitReturned []]).
  - by_evaluation.
  - by_evaluation.
  - by_evaluation.
  - discriminate.
  - reflexivity.
  - repeat constructor. discriminate.
Defined.
(** ** File names *)

Lemma until_slash_free (l : list ascii) :
  Forall (λ c, is_slash c = false) (until_slash l).
Proof.
  induction l as [|c l IH]; simpl; [constructor|].
  destruct (is_slash c) eqn:Hc; [constructor|]. by constructor.
Qed.

Lemma slash_free_of_list (l : list ascii) :
  Forall (λ c, is_slash c = false) l →
  slash_free (String.string_of_list_ascii l) = true.
Proof. induction 1 as [|c l Hc _ IH]; simpl; [done|]. by rewrite Hc, IH. Qed.

(** [path.basename] returns no separator. *)
Lemma basename_slash_free (p : string) : slash_free (basename p) = true.
Proof.
  unfold basename. apply slash_free_of_list.
  apply Forall_forall. intros c Hc.
  apply list_elem_of_In, in_rev, list_elem_of_In in Hc.
  revert c Hc. apply Forall_forall, until_slash_free.
Qed.

(** The artifact of a write: a bare file name and a named source file. *)
Lemma attributed_shape opts wr ret :
  attributed opts wr = Some ret →
  sourceFile ret ≠ "" ∧ slash_free (file ret) = true.
Proof.
  unfold attributed. case_bool_decide; [done|].
  destruct (w_sourceFiles wr) as [[|sf sfs]|]; [done| |done].
  unfold truthy. case_bool_decide as Hsf; [|done]. intros [= <-]. simpl.
  split; [done|apply basename_slash_free].
Qed.

(** X19. The shape of what a call returns when the cache store is empty:
    every returned artifact belongs to an input file, names its source
    file, and carries a bare file name, without any ["/"]. *)
Theorem cold_output_shape (E : Collaborators) (env : ProcessEnv)
    (inputFiles : list string) (cwd : string) (w : World)
    (out : list Artifact) (w' : World) (a : Artifact) :
  getDeclarations E env inputFiles cwd w = (Returned out, w') →
  store w = ∅ →
  a ∈ out →
  sourceFile a ∈ inputFiles ∧ sourceFile a ≠ "" ∧ slash_free (file a) = true.
Proof.
  rewrite getDeclarations_eq. cbv zeta.
  destruct (ensured_frame E env cwd w) as (_ & _ & Hs0 & _). cbv zeta in Hs0.
  set (w0 := if enableCache env then _ else w) in *.
  destruct (getTsconfig E cwd) as [tc|];
    [|intros [= <- _] _ Ha; by apply elem_of_nil in Ha].
  destruct (errors tc) as [|m ms]; [|done].
  destruct (_ && _); [intros [= <- _] _ Ha; by apply elem_of_nil in Ha|].
  destruct (removeOutOfCwdPaths _ _ _ _) as [[o|e'] w1] eqn:Hp; [|done].
  destruct (removeOutOfCwdPaths_frame _ _ _ _ _ _ Hp) as (_ & Hs1 & _).
  intros Hpass Hcold Ha.
  apply compilePass_Returned in Hpass as (keys & s & w2 & _ & Hrun & _ & -> & _).
  rewrite Hs1, Hs0, Hcold, seeds_empty in Hrun.
  apply writes_output in Hrun. rewrite Hrun in Ha. simpl in Ha.
  apply foldl_upsert_elem in Ha as [Ha|Ha]; [by apply elem_of_nil in Ha|].
  apply list_elem_of_omap in Ha as (wr & _ & Hcol).
  apply collected_attributed in Hcol as [Hat Hin].
  split; [done|]. by apply attributed_shape in Hat.
Qed.

Lemma cold_output_shape_witness :
  sourceFile (Scenarios.art_a "A") ∈ [Scenarios.a_ts]
  ∧ sourceFile (Scenarios.art_a "A") ≠ ""
  ∧ slash_free (file (Scenarios.art_a "A")) = true.
Proof.
  apply (cold_output_shape Scenarios.emitting Demo.env [Scenarios.a_ts]
           Scenarios.cwd Scenarios.small_world [Scenarios.art_a "A"]
           Scenarios.cold_run.2).
  - by_evaluation.
  - reflexivity.
  - apply list_elem_of_here.
Defined.
